(** * Bistatic target parameters: range, Doppler and bearing

    A shallow embedding of the computational cells of
    [PassiveRadar/Target Parameter Calculation/auto_param_cal.ipynb].

    Conventions of the embedding.
    - A NumPy [float64] is read as a real number: [+], [-], [*], [np.abs],
      [**2], [np.sum] and [np.sqrt] are their exact counterparts on [R].
      Parts I to VI work in this exact arithmetic.
    - Rounding is modelled twice.  Module [Fl] repeats the cells with a
      rounding [rnd] after every operation; its theorems hold for every
      [rnd] of relative error at most [u], which is what binary64 guarantees
      with [u = 2^-53] as long as nothing overflows or underflows.  Module
      [B64] repeats them on binary64 itself, for results that are computed
      on given inputs.
    - Division is the one operation of the notebook that can leave the finite
      numbers (NumPy yields [nan] or [inf] with a warning and raises
      nothing).  A quotient is therefore an [option]: [None] stands for a
      non-finite result.  Once a non-finite value has appeared, every later
      value computed from it in these cells is non-finite as well, so [None]
      propagates.
    - A three-element [np.array] is the record [ndarray].
    - The notebook has no functions of its own: each cell assigns variables.
      Every definition below carries the name of the variable it computes and
      takes as arguments the variables the cell reads. *)

From Stdlib Require Import PrimFloat.
From Stdlib Require FloatOps SpecFloat.
From Stdlib Require Import Reals Lra Lia ZArith List QArith Qreals Qabs.
Import ListNotations.

Open Scope R_scope.

(** * Part I: the notebook *)

(** ** NumPy arrays of three floats *)

Record ndarray : Type := array { x_ : R; y_ : R; z_ : R }.

Declare Scope nd_scope.
Delimit Scope nd_scope with nd.

Definition nd_sub (a b : ndarray) : ndarray :=
  array (x_ a - x_ b) (y_ a - y_ b) (z_ a - z_ b).

Definition nd_add (a b : ndarray) : ndarray :=
  array (x_ a + x_ b) (y_ a + y_ b) (z_ a + z_ b).

Definition nd_mul (a b : ndarray) : ndarray :=
  array (x_ a * x_ b) (y_ a * y_ b) (z_ a * z_ b).

(** [a * s] and [a *= s] for a scalar [s]. *)
Definition nd_scale (a : ndarray) (s : R) : ndarray :=
  array (x_ a * s) (y_ a * s) (z_ a * s).

Definition np_abs (a : ndarray) : ndarray :=
  array (Rabs (x_ a)) (Rabs (y_ a)) (Rabs (z_ a)).

(** [a ** n] *)
Definition nd_pow (a : ndarray) (n : nat) : ndarray :=
  array (x_ a ^ n) (y_ a ^ n) (z_ a ^ n).

Definition np_sum (a : ndarray) : R := x_ a + y_ a + z_ a.

Definition np_sqrt (x : R) : R := sqrt x.

Infix "-" := nd_sub : nd_scope.
Infix "+" := nd_add : nd_scope.
Infix "*" := nd_mul : nd_scope.

Definition zeros : ndarray := array 0 0 0.

(** ** Division *)

(** [x / y] on floats: finite exactly when the divisor is not zero. *)
Definition np_div (x y : R) : option R :=
  if Req_dec_T y 0 then None else Some (x / y).

(** [a / s] for an array and a scalar, component by component; with [s = 0]
    every component is [nan] or [inf]. *)
Definition nd_div (a : ndarray) (s : R) : option ndarray :=
  if Req_dec_T s 0 then None
  else Some (array (x_ a / s) (y_ a / s) (z_ a / s)).

Definition bind {A B : Type} (m : option A) (f : A -> option B) : option B :=
  match m with
  | Some a => f a
  | None => None
  end.

Notation "x <- m ;; k" := (bind m (fun x => k))
  (at level 61, m at next level, right associativity).

(** ** Cell 2: distances and bistatic range (source lines 118-137) *)

(** [np.sqrt(np.sum(np.abs(a-b)**2))], the expression shared by [L], [Rt]
    and [Rr]. *)
Definition dist (a b : ndarray) : R :=
  np_sqrt (np_sum (nd_pow (np_abs (a - b)%nd) 2)).

(** Baseline distance. *)
Definition L (radar_ecef ioo_ecef : ndarray) : R := dist radar_ecef ioo_ecef.

(** Target to IoO distance. *)
Definition Rt (target_ecef ioo_ecef : ndarray) : R := dist target_ecef ioo_ecef.

(** Target to radar distance. *)
Definition Rr (target_ecef radar_ecef : ndarray) : R := dist target_ecef radar_ecef.

(** Bistatic distance. *)
Definition Rb (ioo_ecef radar_ecef target_ecef : ndarray) : R :=
  Rt target_ecef ioo_ecef + Rr target_ecef radar_ecef - L radar_ecef ioo_ecef.

(** Example sampling frequency, 10 MHz. *)
Definition fs : R := 10 * 10 ^ 6.

(** Speed of light, as the notebook rounds it. *)
Definition c : R := 3 * 10 ^ 8.

(** Observable time delay in number of samples: [tau = Rb*fs/(c)]. *)
Definition tau (Rb : R) : option R := np_div (Rb * fs) c.

(** The four values the geometry solver of the specification hands back,
    each one a variable of cell 2. *)
Record Geometry : Type := mkGeometry {
  baseline : R;
  illuminatorToTarget : R;
  targetToReceiver : R;
  bistaticRange : R
}.

Definition solve (ioo_ecef radar_ecef target_ecef : ndarray) : Geometry :=
  mkGeometry (L radar_ecef ioo_ecef)
             (Rt target_ecef ioo_ecef)
             (Rr target_ecef radar_ecef)
             (Rb ioo_ecef radar_ecef target_ecef).

(** ** Vectors, as the specification words them *)

Definition dot (a b : ndarray) : R :=
  x_ a * x_ b + y_ a * y_ b + z_ a * z_ b.

(** [|v|]: the L2 norm of a vector. *)
Definition l2norm (v : ndarray) : R :=
  sqrt (x_ v * x_ v + y_ v * y_ v + z_ v * z_ v).


(** ** The geodesy library, as the notebook calls it

    [pygeodesy] is not part of the repository.  The notebook uses two of its
    services, each tied to a reference surface:
    - [ecef.EcefYou(datum).forward(lat, lon, height)], geodetic to ECEF;
    - [ellipsoidalVincenty.LatLon(lat, lon).destination(distance, bearing)],
      the point reached from a start point; a [LatLon] of that module carries
      a datum, WGS84 unless one is passed.

    The cells are embedded over whatever the two services compute
    (section [Cells]); a model of [forward] follows for the notebook's own
    numbers. *)

Inductive Datum : Type := Sphere | WGS84.

Definition Datum_eqb (a b : Datum) : bool :=
  match a, b with
  | Sphere, Sphere | WGS84, WGS84 => true
  | _, _ => false
  end.

(** [ecef.EcefYou(datum)] *)
Record EcefYou : Type := mkEcefYou { ecef_datum : Datum }.

(** [ellipsoidalVincenty.LatLon(lat, lon, datum=Datums.WGS84)] *)
Record LatLonT : Type := mkLatLon { lat : R; lon : R; datum : Datum }.

Definition LatLon (lat lon : R) : LatLonT := mkLatLon lat lon WGS84.

(** Source line 52: [ecef_converter = ecef.EcefYou(Datums.Sphere)]. *)
Definition ecef_converter : EcefYou := mkEcefYou Sphere.

(** ** Cell 3: the speed vector (source lines 178-189) *)

(** Lines 187-189: difference of the two Cartesian points, normalised,
    rescaled.  There is no branch on [target_speed]. *)
Definition speed_vector (speed_vector_ecef target_ecef : ndarray)
    (target_speed : R) : option ndarray :=
  let speed_vector := (speed_vector_ecef - target_ecef)%nd in
  speed_vector <-
    nd_div speed_vector (np_sqrt (np_sum (nd_pow (np_abs speed_vector) 2))) ;;
  Some (nd_scale speed_vector target_speed).

Section Cells.

(** The two library services. *)
Variable forward : EcefYou -> R -> R -> R -> ndarray.
Variable destination : LatLonT -> R -> R -> LatLonT.

(** Lines 53-54. *)
Definition target_ecef (target_lat target_lon target_ele : R) : ndarray :=
  forward ecef_converter target_lat target_lon target_ele.

(** Lines 181-182: the point 1 m away in the current direction. *)
Definition speed_vector_latlon (target_lat target_lon target_dir : R) : LatLonT :=
  let target_latlon := LatLon target_lat target_lon in
  destination target_latlon 1 target_dir.

(** Lines 183-186: the probe point in ECEF, at the target's elevation. *)
Definition speed_vector_ecef (target_lat target_lon target_ele target_dir : R)
    : ndarray :=
  let p := speed_vector_latlon target_lat target_lon target_dir in
  forward ecef_converter (lat p) (lon p) target_ele.

(** The whole cell, from the geodetic target and its kinematics. *)
Definition speed_vector_cell
    (target_lat target_lon target_ele target_dir target_speed : R)
    : option ndarray :=
  speed_vector (speed_vector_ecef target_lat target_lon target_ele target_dir)
               (target_ecef target_lat target_lon target_ele)
               target_speed.

End Cells.

(** The reference surface of each library call of cell 3, in the order of the
    calls: the conversion of the target (line 53, [ecef_converter]), the
    probe point (line 182, [destination] of the [LatLon] built on line 181),
    the conversion of the probe point (line 183, [ecef_converter]). *)
Definition surfaces_of_speed_vector (target_lat target_lon : R) : list Datum :=
  [ ecef_datum ecef_converter;
    datum (LatLon target_lat target_lon);
    ecef_datum ecef_converter ].

(** All entries name one surface. *)
Definition same_surface (l : list Datum) : bool :=
  match l with
  | [] => true
  | d :: l' => forallb (Datum_eqb d) l'
  end.

(** ** Cell 4: the bistatic Doppler frequency (source lines 231-240) *)

Definition target_to_ioo_vector (target_ecef ioo_ecef : ndarray) (Rt : R)
    : option ndarray :=
  nd_div (target_ecef - ioo_ecef)%nd Rt.

Definition target_to_radar_vector (target_ecef radar_ecef : ndarray) (Rr : R)
    : option ndarray :=
  nd_div (target_ecef - radar_ecef)%nd Rr.

(** [fD = -1*((np.sum(speed_vector*target_to_ioo_vector)) +
           (np.sum(speed_vector*target_to_radar_vector)))/wavelength] *)
Definition fD (speed_vector target_ecef ioo_ecef radar_ecef : ndarray)
    (Rt Rr wavelength : R) : option R :=
  target_to_ioo_vector <- target_to_ioo_vector target_ecef ioo_ecef Rt ;;
  target_to_radar_vector <- target_to_radar_vector target_ecef radar_ecef Rr ;;
  np_div (-1 * (np_sum (speed_vector * target_to_ioo_vector)%nd
                + np_sum (speed_vector * target_to_radar_vector)%nd))
         wavelength.

(** Cells 2, 3 and 4 chained as the notebook runs them: [Rt] and [Rr] are the
    distances of cell 2, the speed vector is that of cell 3. *)
Definition dopplerHz (speed_vector_ecef target_ecef ioo_ecef radar_ecef : ndarray)
    (target_speed wavelength : R) : option R :=
  v <- speed_vector speed_vector_ecef target_ecef target_speed ;;
  fD v target_ecef ioo_ecef radar_ecef
     (Rt target_ecef ioo_ecef) (Rr target_ecef radar_ecef) wavelength.

(** ** What running a cell yields

    A Python computation either returns a value or raises.  The cells above
    contain no [raise], no [assert] and no call that raises on a zero
    divisor, so running them always returns; a non-finite float is a
    returned value. *)

(** The error kinds the specification names. *)
Inductive error : Type :=
| InvalidCoordinate
| DegenerateGeometry
| InvalidParameter.

Inductive outcome (A : Type) : Type :=
| Returned (a : A)
| Raised (e : error).

Arguments Returned {A} a.
Arguments Raised {A} e.

(** Running cell 4 after cell 2. *)
Definition run_fD (speed_vector target_ecef ioo_ecef radar_ecef : ndarray)
    (wavelength : R) : outcome (option R) :=
  Returned (fD speed_vector target_ecef ioo_ecef radar_ecef
               (Rt target_ecef ioo_ecef) (Rr target_ecef radar_ecef) wavelength).

(** ** Degrees and radians *)

Definition radians (deg : R) : R := deg * PI / 180.

Definition degrees (rad : R) : R := rad * 180 / PI.

(** ** A model of the library's [forward]

    Modelled from the spec: [toCartesian] (4.1), "the standard
    geodetic-to-Cartesian transform for the configured reference surface
    (sphere or ellipsoid, e.g. WGS84)"; [ecef.EcefYou.forward] itself is
    library code.  A surface is given by its semi-major axis and its
    flattening; the sphere has the mean Earth radius and no flattening.  The
    radius is the library's; theorem [example_target_ecef] checks the model
    against the coordinates the notebook prints in cell 1. *)

Definition semi_major (d : Datum) : R :=
  match d with
  | Sphere => 6371008.771415
  | WGS84 => 6378137
  end.

Definition flattening (d : Datum) : R :=
  match d with
  | Sphere => 0
  | WGS84 => 1 / 298.257223563
  end.

(** First eccentricity squared. *)
Definition ecc2 (d : Datum) : R := flattening d * (2 - flattening d).

Definition EcefYou_forward (converter : EcefYou) (lat lon height : R) : ndarray :=
  let sa := sin (radians lat) in
  let ca := cos (radians lat) in
  let sb := sin (radians lon) in
  let cb := cos (radians lon) in
  let e2 := ecc2 (ecef_datum converter) in
  let n := semi_major (ecef_datum converter) / sqrt (1 - e2 * (sa * sa)) in
  let z := (height + n * (1 - e2)) * sa in
  let x := (height + n) * ca in
  array (x * cb) (x * sb) z.

(** What the speed-vector cell needs from [destination] when the heading is
    north (bearing 0): the probe lies on the target's meridian, north of the
    target, at most [1e-4] degree away.  One metre of meridian arc is about
    [9e-6] degree on either surface. *)
Definition probe_due_north (destination : LatLonT -> R -> R -> LatLonT)
    (target_lat target_lon : R) : Prop :=
  let p := destination (LatLon target_lat target_lon) 1 0 in
  lon p = target_lon /\ target_lat < lat p <= target_lat + 0.0001.

(** A stand-in for [destination] that is adequate for bearing 0 only: it
    moves the point north by [9e-6] degree per metre.  It shows that
    [probe_due_north] can be met. *)
Definition destination_north (p : LatLonT) (distance bearing : R) : LatLonT :=
  mkLatLon (lat p + distance * 0.000009) (lon p) (datum p).

(** The unit vector pointing north at latitude [psi] and longitude [lam]
    (radians), in ECEF coordinates. *)
Definition north_unit (psi lam : R) : ndarray :=
  array (- sin psi * cos lam) (- sin psi * sin lam) (cos psi).

(** ** Bearing

    The notebook holds the formula for [theta] (source line 254, in a text
    cell).  The routine it calls for the angle of arrival,
    [pyapril.targetParamCalculator.calculate_bistatic_target_parameters]
    (source lines 287-301), is library code and not in the repository. *)

(** [atan2(y, x)], with values in [(-PI, PI]]. *)
Definition atan2 (y x : R) : R :=
  if Rlt_dec 0 x then atan (y / x)
  else if Rlt_dec x 0 then
    (if Rle_dec 0 y then atan (y / x) + PI else atan (y / x) - PI)
  else if Rlt_dec 0 y then PI / 2
  else if Rlt_dec y 0 then - (PI / 2)
  else 0.

(** The formula of source line 254, angles in radians. *)
Definition theta (lat1 lon1 lat2 lon2 : R) : R :=
  atan2 (cos lat1 * sin lat2 - sin lat1 * cos lat2 * cos (lon2 - lon1))
        (sin (lon2 - lon1) * cos lat2).

(** ** Rounded arithmetic

    A float64 operation returns the exact result rounded to a float.  As
    long as the result neither overflows nor underflows, binary64 rounds
    with relative error at most [2^-53]. *)

(** [rnd] rounds with relative error at most [u]. *)
Definition rounds_within (u : R) (rnd : R -> R) : Prop :=
  forall x, Rabs (rnd x - x) <= u * Rabs x.

(** The unit roundoff of binary64. *)
Definition unit_roundoff : R := / 2 ^ 53.

(** A rounding that is off by the full unit roundoff on every operation. *)
Definition round_off (x : R) : R := x * (1 + unit_roundoff).

(** [y] is [x >= 0] up to [k] roundings. *)
Definition approx (u : R) (k : nat) (x y : R) : Prop :=
  (1 - u) ^ k * x <= y <= (1 + u) ^ k * x.

(** ** The cells in rounded arithmetic

    The cells once more, with [rnd] applied to the result of every
    floating-point operation, in the order in which the notebook performs
    them.  [np.abs] is exact on floats.  With the identity for [rnd] these
    are the definitions above (lemmas [exact_dist] to [exact_fD]). *)

Module Fl.
Section Rounded.

Variable rnd : R -> R.

Definition nd_sub (a b : ndarray) : ndarray :=
  array (rnd (x_ a - x_ b)) (rnd (y_ a - y_ b)) (rnd (z_ a - z_ b)).

Definition nd_mul (a b : ndarray) : ndarray :=
  array (rnd (x_ a * x_ b)) (rnd (y_ a * y_ b)) (rnd (z_ a * z_ b)).

Definition nd_scale (a : ndarray) (s : R) : ndarray :=
  array (rnd (x_ a * s)) (rnd (y_ a * s)) (rnd (z_ a * s)).

(** [a ** 2] *)
Definition nd_sq (a : ndarray) : ndarray :=
  array (rnd (x_ a * x_ a)) (rnd (y_ a * y_ a)) (rnd (z_ a * z_ a)).

(** [np.sum] adds the three entries from left to right. *)
Definition np_sum (a : ndarray) : R := rnd (rnd (x_ a + y_ a) + z_ a).

Definition np_sqrt (x : R) : R := rnd (sqrt x).

Definition np_div (x y : R) : option R :=
  if Req_dec_T y 0 then None else Some (rnd (x / y)).

Definition nd_div (a : ndarray) (s : R) : option ndarray :=
  if Req_dec_T s 0 then None
  else Some (array (rnd (x_ a / s)) (rnd (y_ a / s)) (rnd (z_ a / s))).

(** [np.sqrt(np.sum(np.abs(v)**2))] *)
Definition norm (v : ndarray) : R := np_sqrt (np_sum (nd_sq (np_abs v))).

(** [np.sqrt(np.sum(np.abs(a-b)**2))] *)
Definition dist (a b : ndarray) : R := norm (nd_sub a b).

Definition L (radar_ecef ioo_ecef : ndarray) : R := dist radar_ecef ioo_ecef.

Definition Rt (target_ecef ioo_ecef : ndarray) : R := dist target_ecef ioo_ecef.

Definition Rr (target_ecef radar_ecef : ndarray) : R := dist target_ecef radar_ecef.

(** [Rb = Rt+Rr-L] *)
Definition Rb (ioo_ecef radar_ecef target_ecef : ndarray) : R :=
  rnd (rnd (Rt target_ecef ioo_ecef + Rr target_ecef radar_ecef)
       - L radar_ecef ioo_ecef).

(** [tau = Rb*fs/(c)]; [fs] and [c] are Python integers, exact as floats. *)
Definition tau (Rb : R) : option R := np_div (rnd (Rb * fs)) c.

(** Lines 187-189. *)
Definition speed_vector (speed_vector_ecef target_ecef : ndarray)
    (target_speed : R) : option ndarray :=
  let speed_vector := nd_sub speed_vector_ecef target_ecef in
  speed_vector <- nd_div speed_vector (norm speed_vector) ;;
  Some (nd_scale speed_vector target_speed).

(** Cell 3 from the geodetic target; the two library services hand back
    floats. *)
Definition speed_vector_cell
    (forward : EcefYou -> R -> R -> R -> ndarray)
    (destination : LatLonT -> R -> R -> LatLonT)
    (target_lat target_lon target_ele target_dir target_speed : R)
    : option ndarray :=
  speed_vector
    (speed_vector_ecef forward destination target_lat target_lon target_ele target_dir)
    (target_ecef forward target_lat target_lon target_ele)
    target_speed.

(** Lines 234-240. *)
Definition fD (speed_vector target_ecef ioo_ecef radar_ecef : ndarray)
    (Rt Rr wavelength : R) : option R :=
  target_to_ioo_vector <- nd_div (nd_sub target_ecef ioo_ecef) Rt ;;
  target_to_radar_vector <- nd_div (nd_sub target_ecef radar_ecef) Rr ;;
  np_div (rnd (-1 * rnd (np_sum (nd_mul speed_vector target_to_ioo_vector)
                         + np_sum (nd_mul speed_vector target_to_radar_vector))))
         wavelength.

End Rounded.
End Fl.

(** ** The cells in binary64

    The same cells on Rocq's primitive floats, which are IEEE 754 binary64
    with rounding to nearest, as NumPy's [float64].  A division by zero
    yields [nan] or an infinity, as in NumPy. *)

Module B64.

Local Open Scope float_scope.

Record ndarray : Type := array { x_ : float; y_ : float; z_ : float }.

Definition nd_sub (a b : ndarray) : ndarray :=
  array (x_ a - x_ b) (y_ a - y_ b) (z_ a - z_ b).

Definition nd_mul (a b : ndarray) : ndarray :=
  array (x_ a * x_ b) (y_ a * y_ b) (z_ a * z_ b).

Definition nd_scale (a : ndarray) (s : float) : ndarray :=
  array (x_ a * s) (y_ a * s) (z_ a * s).

Definition nd_div (a : ndarray) (s : float) : ndarray :=
  array (x_ a / s) (y_ a / s) (z_ a / s).

Definition np_abs (a : ndarray) : ndarray :=
  array (PrimFloat.abs (x_ a)) (PrimFloat.abs (y_ a)) (PrimFloat.abs (z_ a)).

(** [a ** 2] *)
Definition nd_sq (a : ndarray) : ndarray :=
  array (x_ a * x_ a) (y_ a * y_ a) (z_ a * z_ a).

Definition np_sum (a : ndarray) : float := x_ a + y_ a + z_ a.

(** [np.sqrt(np.sum(np.abs(v)**2))] *)
Definition norm (v : ndarray) : float :=
  PrimFloat.sqrt (np_sum (nd_sq (np_abs v))).

Definition dist (a b : ndarray) : float := norm (nd_sub a b).

Definition L (radar_ecef ioo_ecef : ndarray) : float := dist radar_ecef ioo_ecef.

Definition Rt (target_ecef ioo_ecef : ndarray) : float := dist target_ecef ioo_ecef.

Definition Rr (target_ecef radar_ecef : ndarray) : float := dist target_ecef radar_ecef.

Definition Rb (ioo_ecef radar_ecef target_ecef : ndarray) : float :=
  Rt target_ecef ioo_ecef + Rr target_ecef radar_ecef - L radar_ecef ioo_ecef.

Definition fs : float := 10000000.

Definition c : float := 300000000.

Definition tau (Rb : float) : float := Rb * fs / c.

Definition speed_vector (speed_vector_ecef target_ecef : ndarray)
    (target_speed : float) : ndarray :=
  let speed_vector := nd_sub speed_vector_ecef target_ecef in
  let speed_vector := nd_div speed_vector (norm speed_vector) in
  nd_scale speed_vector target_speed.

Definition fD (speed_vector target_ecef ioo_ecef radar_ecef : ndarray)
    (Rt Rr wavelength : float) : float :=
  let target_to_ioo_vector := nd_div (nd_sub target_ecef ioo_ecef) Rt in
  let target_to_radar_vector := nd_div (nd_sub target_ecef radar_ecef) Rr in
  (-1) * (np_sum (nd_mul speed_vector target_to_ioo_vector)
          + np_sum (nd_mul speed_vector target_to_radar_vector)) / wavelength.

(** The rational number a finite float stands for. *)
Definition toQ (x : float) : Q :=
  match FloatOps.Prim2SF x with
  | SpecFloat.S754_finite s m e =>
      let z := if s then Z.neg m else Z.pos m in
      if (0 <=? e)%Z then inject_Z (z * 2 ^ e) else Qmake z (Z.to_pos (2 ^ (- e)))
  | _ => 0%Q
  end.

(** The exact square of the Euclidean norm of a vector of floats. *)
Definition sumsq (v : ndarray) : Q :=
  (toQ (x_ v) * toQ (x_ v) + toQ (y_ v) * toQ (y_ v) + toQ (z_ v) * toQ (z_ v))%Q.

End B64.

(** ** The notebook's example (cells 1 to 5) *)

Module Notebook.

(** Budapest, Heroes' Square. *)
Definition target_lat : R := 47.515136.
Definition target_lon : R := 19.078176.
Definition target_ele : R := 108.

(** The IoO: Budapest, Szechenyi hill; above sea level + above ground level. *)
Definition ioo_lat : R := 47.49166667.
Definition ioo_lon : R := 18.97888889.
Definition ioo_ele : R := 457 + 182.

(** The radar: Budapest, Matthias Church. *)
Definition radar_lat : R := 47.501807.
Definition radar_lon : R := 19.034006.
Definition radar_ele : R := 169.

(** North direction, 10 m/s, 0.5 m wavelength (600 MHz). *)
Definition target_dir : R := 0.
Definition target_speed : R := 10.
Definition wavelength : R := 0.5.

(** Relative to the north direction. *)
Definition radar_bearing : R := 0.

Definition target_ecef : ndarray :=
  EcefYou_forward ecef_converter target_lat target_lon target_ele.

Definition ioo_ecef : ndarray :=
  EcefYou_forward ecef_converter ioo_lat ioo_lon ioo_ele.

Definition radar_ecef : ndarray :=
  EcefYou_forward ecef_converter radar_lat radar_lon radar_ele.

End Notebook.

(** * Part II: rational bounds

    The example's numbers need sines, cosines and square roots to about ten
    digits.  They are enclosed in intervals with rational end points, which
    compute. *)

(** ** Exact rational arithmetic *)

Fixpoint qpow (q : Q) (n : nat) : Q :=
  match n with
  | O => 1%Q
  | S k => (q * qpow q k)%Q
  end.

(** Factorial, on binary integers. *)
Fixpoint zfact (n : nat) : Z :=
  match n with
  | O => 1%Z
  | S k => (Z.of_nat (S k) * zfact k)%Z
  end.

(** [f 0 + ... + f n] *)
Fixpoint sumQ (f : nat -> Q) (n : nat) : Q :=
  match n with
  | O => f O
  | S k => (sumQ f k + f (S k))%Q
  end.

(** Rounding to sixteen decimal places, downwards and upwards. *)
Definition grid : positive := 10000000000000000.

Definition rdn (q : Q) : Q := ((Qnum q * Zpos grid) / Zpos (Qden q))%Z # grid.

Definition rup (q : Q) : Q := (- rdn (- q))%Q.

(** The terms of the sine and cosine series. *)
Definition sin_termQ (a : Q) (i : nat) : Q :=
  (qpow (-1) i * (qpow a (2 * i + 1) / inject_Z (zfact (2 * i + 1))))%Q.

Definition cos_termQ (a : Q) (i : nat) : Q :=
  (qpow (-1) i * (qpow a (2 * i) / inject_Z (zfact (2 * i))))%Q.

Definition sin_approxQ (a : Q) (n : nat) : Q := sumQ (sin_termQ a) n.

Definition cos_approxQ (a : Q) (n : nat) : Q := sumQ (cos_termQ a) n.

(** The terms of [PI/4 = 2 atan(1/3) + atan(1/7)]. *)
Definition ratan_seqQ (x : Q) (n : nat) : Q :=
  (qpow x (2 * n + 1) / inject_Z (Z.of_nat (2 * n + 1)))%Q.

Definition pi_tgQ (n : nat) : Q :=
  (qpow (-1) n * (2 * ratan_seqQ (1 # 3) n + ratan_seqQ (1 # 7) n))%Q.

(** Eighteen decimals of [PI], below and above. *)
Definition pi_lo : Q := 3.141592653589793238.

Definition pi_hi : Q := 3.141592653589793243.

(** ** Intervals with rational end points *)

Record itv : Type := mkitv { lo : Q; hi : Q }.

(** [x] lies in [I]. *)
Definition mem (x : R) (I : itv) : Prop := Q2R (lo I) <= x <= Q2R (hi I).

Definition qmin (a b : Q) : Q := if Qle_bool a b then a else b.

Definition qmax (a b : Q) : Q := if Qle_bool a b then b else a.

Definition ipoint (q : Q) : itv := mkitv q q.

Definition iadd (I J : itv) : itv := mkitv (lo I + lo J) (hi I + hi J).

Definition isub (I J : itv) : itv := mkitv (lo I - hi J) (hi I - lo J).

Definition imul (I J : itv) : itv :=
  let a := (lo I * lo J)%Q in
  let b := (lo I * hi J)%Q in
  let c := (hi I * lo J)%Q in
  let d := (hi I * hi J)%Q in
  mkitv (qmin (qmin a b) (qmin c d)) (qmax (qmax a b) (qmax c d)).

(** The reciprocal of an interval of positive numbers. *)
Definition positive_itv (I : itv) : bool := negb (Qle_bool (lo I) 0).

Definition iinv (I : itv) : itv := mkitv (rdn (/ hi I)) (rup (/ lo I)).

Definition iround (I : itv) : itv := mkitv (rdn (lo I)) (rup (hi I)).

(** [I] lies within [[l, u]]. *)
Definition within (I : itv) (l u : Q) : bool := Qle_bool l (lo I) && Qle_bool (hi I) u.

(** ** Sine and cosine of an angle given in degrees *)

Definition rad_lo (d : Q) : Q := rdn (d * pi_lo / 180).

Definition rad_hi (d : Q) : Q := rup (d * pi_hi / 180).

(** Partial sums of the sine and cosine series with every term rounded
    downwards, or upwards. *)
Definition sin_dn (a : Q) (n : nat) : Q := sumQ (fun i => rdn (sin_termQ a i)) n.

Definition sin_up (a : Q) (n : nat) : Q := sumQ (fun i => rup (sin_termQ a i)) n.

Definition cos_dn (a : Q) (n : nat) : Q := sumQ (fun i => rdn (cos_termQ a i)) n.

Definition cos_up (a : Q) (n : nat) : Q := sumQ (fun i => rup (cos_termQ a i)) n.

Definition sin_itv (D : itv) : itv :=
  iround (mkitv (sin_dn (rad_lo (lo D)) 7) (sin_up (rad_hi (hi D)) 8)).

Definition cos_itv (D : itv) : itv :=
  iround (mkitv (cos_dn (rad_hi (hi D)) 7) (cos_up (rad_lo (lo D)) 8)).

Definition sincos_itv (D : itv) : itv * itv := (sin_itv D, cos_itv D).

(** The angle is not negative and its bounds in radians lie between 0 and
    a lower bound of [PI/2]. *)
Definition deg_ok (D : itv) : bool :=
  Qle_bool 0 (lo D) && Qle_bool 0 (rad_lo (lo D))
  && Qle_bool (rad_hi (hi D)) (pi_lo / 2) && Qle_bool 3 pi_lo.

(** ** Polynomial expressions and their interval evaluation *)

Inductive expr : Type :=
| Var (n : nat)
| Cst (q : Q)
| Add (a b : expr)
| Sub (a b : expr)
| Mul (a b : expr).

Fixpoint eval (env : list R) (e : expr) : R :=
  match e with
  | Var n => nth n env 0
  | Cst q => Q2R q
  | Add a b => eval env a + eval env b
  | Sub a b => eval env a - eval env b
  | Mul a b => eval env a * eval env b
  end.

Fixpoint ieval (ienv : list itv) (e : expr) : itv :=
  match e with
  | Var n => nth n ienv (ipoint 0)
  | Cst q => ipoint q
  | Add a b => iround (iadd (ieval ienv a) (ieval ienv b))
  | Sub a b => iround (isub (ieval ienv a) (ieval ienv b))
  | Mul a b => iround (imul (ieval ienv a) (ieval ienv b))
  end.

(** ** The example's quantities as expressions *)

(** Sine and cosine of the example's angles. *)
Definition sc_ioo_lat : itv * itv := Eval vm_compute in sincos_itv (ipoint 47.49166667).
Definition sc_ioo_lon : itv * itv := Eval vm_compute in sincos_itv (ipoint 18.97888889).
Definition sc_radar_lat : itv * itv := Eval vm_compute in sincos_itv (ipoint 47.501807).
Definition sc_radar_lon : itv * itv := Eval vm_compute in sincos_itv (ipoint 19.034006).
Definition sc_target_lat : itv * itv := Eval vm_compute in sincos_itv (ipoint 47.515136).
Definition sc_target_lon : itv * itv := Eval vm_compute in sincos_itv (ipoint 19.078176).

(** The values the three ECEF points are built from: for each point the
    distance from the centre of the sphere, then sine and cosine of its
    latitude and of its longitude. *)
Definition env : list R :=
  [ Notebook.ioo_ele + semi_major Sphere;
    sin (radians Notebook.ioo_lat); cos (radians Notebook.ioo_lat);
    sin (radians Notebook.ioo_lon); cos (radians Notebook.ioo_lon);
    Notebook.radar_ele + semi_major Sphere;
    sin (radians Notebook.radar_lat); cos (radians Notebook.radar_lat);
    sin (radians Notebook.radar_lon); cos (radians Notebook.radar_lon);
    Notebook.target_ele + semi_major Sphere;
    sin (radians Notebook.target_lat); cos (radians Notebook.target_lat);
    sin (radians Notebook.target_lon); cos (radians Notebook.target_lon) ].

Definition ienv : list itv :=
  [ ipoint 6371647.771415;
    fst sc_ioo_lat; snd sc_ioo_lat; fst sc_ioo_lon; snd sc_ioo_lon;
    ipoint 6371177.771415;
    fst sc_radar_lat; snd sc_radar_lat; fst sc_radar_lon; snd sc_radar_lon;
    ipoint 6371116.771415;
    fst sc_target_lat; snd sc_target_lat; fst sc_target_lon; snd sc_target_lon ].

(** The ECEF coordinates of the point whose values start at index [b]. *)
Definition ecef_x (b : nat) : expr := Mul (Mul (Var b) (Var (b + 2))) (Var (b + 4)).
Definition ecef_y (b : nat) : expr := Mul (Mul (Var b) (Var (b + 2))) (Var (b + 3)).
Definition ecef_z (b : nat) : expr := Mul (Var b) (Var (b + 1)).

Definition sq (e : expr) : expr := Mul e e.

(** The squared distance of two of the points. *)
Definition dist2 (a b : nat) : expr :=
  Add (Add (sq (Sub (ecef_x a) (ecef_x b))) (sq (Sub (ecef_y a) (ecef_y b))))
      (sq (Sub (ecef_z a) (ecef_z b))).

(** For the Doppler value: sine and cosine of the latitude half-way between
    target and probe, and the reciprocals of [Rt] and [Rr]. *)
Definition sc_psi : itv * itv :=
  Eval vm_compute in sincos_itv (mkitv 47.515136 47.515186).
Definition inv_Rt : itv := Eval vm_compute in iinv (mkitv 7919.8681 7919.8682).
Definition inv_Rr : itv := Eval vm_compute in iinv (mkitv 3634.2197 3634.2198).

Definition env_doppler (psi : R) : list R :=
  env ++ [ sin psi; cos psi;
           / Rt Notebook.target_ecef Notebook.ioo_ecef;
           / Rr Notebook.target_ecef Notebook.radar_ecef ].

Definition ienv_doppler : list itv :=
  ienv ++ [ fst sc_psi; snd sc_psi; inv_Rt; inv_Rr ].

(** [n . (a - b)] for the north vector [n] at the target and two of the
    points. *)
Definition dot_north (a b : nat) : expr :=
  Add (Add (Mul (Mul (Cst (-1)) (Mul (Var 15) (Var 14))) (Sub (ecef_x a) (ecef_x b)))
           (Mul (Mul (Cst (-1)) (Mul (Var 15) (Var 13))) (Sub (ecef_y a) (ecef_y b))))
      (Mul (Var 16) (Sub (ecef_z a) (ecef_z b))).

(** [fD] for speed 10 and wavelength 0.5. *)
Definition fD_expr : expr :=
  Mul (Cst (-20)) (Add (Mul (dot_north 10 0) (Var 17)) (Mul (dot_north 10 5) (Var 18))).

(** For the bearing: the difference of the longitudes, and two angles that
    enclose [theta]. *)
Definition sc_dlon : itv * itv := Eval vm_compute in sincos_itv (ipoint 0.04417).
Definition sc_beta1 : itv * itv := Eval vm_compute in sincos_itv (ipoint 24.08).
Definition sc_beta2 : itv * itv := Eval vm_compute in sincos_itv (ipoint 24.09).

Definition env_bearing : list R :=
  [ sin (radians Notebook.radar_lat); cos (radians Notebook.radar_lat);
    sin (radians Notebook.target_lat); cos (radians Notebook.target_lat);
    sin (radians Notebook.target_lon - radians Notebook.radar_lon);
    cos (radians Notebook.target_lon - radians Notebook.radar_lon);
    sin (radians 24.08); cos (radians 24.08);
    sin (radians 24.09); cos (radians 24.09) ].

Definition ienv_bearing : list itv :=
  [ fst sc_radar_lat; snd sc_radar_lat; fst sc_target_lat; snd sc_target_lat;
    fst sc_dlon; snd sc_dlon; fst sc_beta1; snd sc_beta1; fst sc_beta2; snd sc_beta2 ].

(** The two arguments of [atan2] in [theta]. *)
Definition theta_y : expr :=
  Sub (Mul (Var 1) (Var 2)) (Mul (Mul (Var 0) (Var 3)) (Var 5)).

Definition theta_x : expr := Mul (Var 4) (Var 3).

(** * Part III: properties *)

(** ** Norm facts *)

Lemma sumsq_nonneg (v : ndarray) : 0 <= x_ v * x_ v + y_ v * y_ v + z_ v * z_ v.
Proof. nra. Qed.

Lemma dist_l2norm (a b : ndarray) : dist a b = l2norm (a - b)%nd.
Proof.
  unfold dist, l2norm, np_sqrt, np_sum, nd_pow, np_abs; cbn [x_ y_ z_].
  f_equal.
  rewrite <- !Rsqr_pow2, <- !Rsqr_abs. unfold Rsqr. reflexivity.
Qed.

Lemma l2norm_nonneg (v : ndarray) : 0 <= l2norm v.
Proof. apply sqrt_pos. Qed.

Lemma l2norm_sqr (v : ndarray) : l2norm v * l2norm v = dot v v.
Proof. unfold l2norm, dot. apply sqrt_sqrt, sumsq_nonneg. Qed.

Lemma l2norm_zero_iff (v : ndarray) : l2norm v = 0 <-> v = zeros.
Proof.
  split.
  - intros H. unfold l2norm in H.
    apply sqrt_eq_0 in H; [| apply sumsq_nonneg].
    destruct v as [a b c]; cbn [x_ y_ z_] in H.
    assert (a = 0) by nra. assert (b = 0) by nra. assert (c = 0) by nra.
    subst. reflexivity.
  - intros ->. unfold l2norm, zeros; cbn [x_ y_ z_].
    replace (0 * 0 + 0 * 0 + 0 * 0) with 0 by ring. apply sqrt_0.
Qed.

Lemma nd_sub_zero_iff (a b : ndarray) : (a - b)%nd = zeros <-> a = b.
Proof.
  destruct a as [a1 a2 a3], b as [b1 b2 b3]. unfold nd_sub, zeros; cbn [x_ y_ z_].
  split; intros H; inversion H; f_equal; lra.
Qed.

Lemma dist_zero_iff (a b : ndarray) : dist a b = 0 <-> a = b.
Proof. rewrite dist_l2norm, l2norm_zero_iff. apply nd_sub_zero_iff. Qed.

Lemma dist_nonneg (a b : ndarray) : 0 <= dist a b.
Proof. rewrite dist_l2norm. apply l2norm_nonneg. Qed.

Lemma dist_pos (a b : ndarray) : a <> b -> 0 < dist a b.
Proof.
  intros H. destruct (dist_nonneg a b) as [Hlt | Heq]; [exact Hlt |].
  symmetry in Heq. apply dist_zero_iff in Heq. contradiction.
Qed.

Lemma cauchy_schwarz (a b : ndarray) : dot a b <= l2norm a * l2norm b.
Proof.
  pose proof (l2norm_nonneg a) as Ha. pose proof (l2norm_nonneg b) as Hb.
  pose proof (l2norm_sqr a) as Ea. pose proof (l2norm_sqr b) as Eb.
  assert (Hsq : dot a b * dot a b <= (l2norm a * l2norm b) * (l2norm a * l2norm b)).
  { replace ((l2norm a * l2norm b) * (l2norm a * l2norm b))
      with ((l2norm a * l2norm a) * (l2norm b * l2norm b)) by ring.
    rewrite Ea, Eb. unfold dot. destruct a as [a1 a2 a3], b as [b1 b2 b3]; cbn [x_ y_ z_].
    pose proof (Rle_0_sqr (a1 * b2 - a2 * b1)) as H1.
    pose proof (Rle_0_sqr (a1 * b3 - a3 * b1)) as H2.
    pose proof (Rle_0_sqr (a2 * b3 - a3 * b2)) as H3.
    unfold Rsqr in H1, H2, H3. lra. }
  assert (Hp : 0 <= l2norm a * l2norm b) by (apply Rmult_le_pos; assumption).
  destruct (Rle_dec (dot a b) 0) as [Hn | Hn]; [lra |].
  apply Rsqr_incr_0_var; [exact Hsq | exact Hp].
Qed.

Lemma l2norm_triangle (a b : ndarray) : l2norm (a + b)%nd <= l2norm a + l2norm b.
Proof.
  pose proof (l2norm_nonneg a) as Ha. pose proof (l2norm_nonneg b) as Hb.
  apply Rsqr_incr_0_var; [| lra]. unfold Rsqr.
  rewrite l2norm_sqr.
  replace (dot (a + b)%nd (a + b)%nd) with (dot a a + 2 * dot a b + dot b b)
    by (unfold dot, nd_add; cbn [x_ y_ z_]; ring).
  rewrite <- !l2norm_sqr. pose proof (cauchy_schwarz a b). lra.
Qed.

Lemma dist_sym (a b : ndarray) : dist a b = dist b a.
Proof.
  rewrite !dist_l2norm. unfold l2norm, nd_sub; cbn [x_ y_ z_]. f_equal. ring.
Qed.

Lemma dist_triangle (a b c : ndarray) : dist a c <= dist a b + dist b c.
Proof.
  rewrite !dist_l2norm.
  replace (a - c)%nd with ((a - b) + (b - c))%nd.
  - apply l2norm_triangle.
  - unfold nd_add, nd_sub; cbn [x_ y_ z_]. f_equal; ring.
Qed.

(** ** C1 *)

(** C1. For every triple of Cartesian points (illuminator [i], receiver [r],
    target [t]) the geometry solver returns [baseline = |r - i|],
    [illuminatorToTarget = |t - i|], [targetToReceiver = |t - r|], the
    Euclidean norms of the pairwise differences, and
    [bistaticRange = illuminatorToTarget + targetToReceiver - baseline]. *)
Theorem C1_geometry_solver (i r t : ndarray) :
  let g := solve i r t in
  baseline g = l2norm (r - i)%nd /\
  illuminatorToTarget g = l2norm (t - i)%nd /\
  targetToReceiver g = l2norm (t - r)%nd /\
  bistaticRange g = illuminatorToTarget g + targetToReceiver g - baseline g.
Proof.
  cbn [solve baseline illuminatorToTarget targetToReceiver bistaticRange].
  unfold Rb, L, Rt, Rr. rewrite !dist_l2norm. repeat split; reflexivity.
Qed.

(** ** The distance is a metric; the bistatic range is not negative *)

(** X5. The distance of a point to itself is 0, the distance is symmetric
    and not negative, and it is 0 only between equal points. *)
Theorem dist_metric (a b : ndarray) :
  dist a a = 0 /\ dist a b = dist b a /\ 0 <= dist a b /\ (dist a b = 0 <-> a = b).
Proof.
  repeat split.
  - apply dist_zero_iff. reflexivity.
  - apply dist_sym.
  - apply dist_nonneg.
  - apply dist_zero_iff.
  - apply dist_zero_iff.
Qed.

(** The triangle inequality: [Rt + Rr >= L], so in exact arithmetic the
    bistatic range is not negative. *)
Lemma Rb_nonneg (ioo_ecef radar_ecef target_ecef : ndarray) :
  0 <= Rb ioo_ecef radar_ecef target_ecef.
Proof.
  unfold Rb, Rt, Rr, L.
  pose proof (dist_triangle radar_ecef target_ecef ioo_ecef) as H.
  rewrite (dist_sym radar_ecef target_ecef) in H. lra.
Qed.

(** ** Division facts *)

Lemma np_div_finite (x y : R) : y <> 0 -> np_div x y = Some (x / y).
Proof. intros H. unfold np_div. destruct (Req_dec_T y 0); [contradiction | reflexivity]. Qed.

Lemma np_div_zero (x : R) : np_div x 0 = None.
Proof. unfold np_div. destruct (Req_dec_T 0 0) as [_ | H]; [reflexivity | now elim H]. Qed.

Lemma nd_div_finite (a : ndarray) (s : R) :
  s <> 0 -> nd_div a s = Some (array (x_ a / s) (y_ a / s) (z_ a / s)).
Proof. intros H. unfold nd_div. destruct (Req_dec_T s 0); [contradiction | reflexivity]. Qed.

Lemma nd_div_zero (a : ndarray) : nd_div a 0 = None.
Proof. unfold nd_div. destruct (Req_dec_T 0 0) as [_ | H]; [reflexivity | now elim H]. Qed.

Lemma array_neq (a b c a' b' c' : R) :
  a <> a' \/ b <> b' \/ c <> c' -> array a b c <> array a' b' c'.
Proof. intros H E; inversion E; subst; tauto. Qed.

(** ** The Doppler formula in closed form *)

Lemma fD_closed_form (v t i r : ndarray) (d1 d2 lambda : R) :
  d1 <> 0 -> d2 <> 0 -> lambda <> 0 ->
  fD v t i r d1 d2 lambda
  = Some (- (dot v (t - i)%nd / d1 + dot v (t - r)%nd / d2) / lambda).
Proof.
  intros H1 H2 Hl. unfold fD, target_to_ioo_vector, target_to_radar_vector.
  rewrite (nd_div_finite _ d1 H1), (nd_div_finite _ d2 H2). cbn [bind].
  rewrite (np_div_finite _ lambda Hl). f_equal.
  unfold np_sum, nd_mul, dot; cbn [x_ y_ z_]. field. repeat split; assumption.
Qed.

Lemma fD_degenerate_Rt (v t i r : ndarray) (d2 lambda : R) :
  fD v t i r 0 d2 lambda = None.
Proof. unfold fD, target_to_ioo_vector. now rewrite nd_div_zero. Qed.

Lemma fD_degenerate_Rr (v t i r : ndarray) (d1 lambda : R) :
  fD v t i r d1 0 lambda = None.
Proof.
  unfold fD, target_to_ioo_vector, target_to_radar_vector.
  rewrite nd_div_zero. destruct (nd_div _ d1); reflexivity.
Qed.

Lemma fD_zero_wavelength (v t i r : ndarray) (d1 d2 : R) :
  fD v t i r d1 d2 0 = None.
Proof.
  unfold fD. destruct (target_to_ioo_vector t i d1); [| reflexivity].
  destruct (target_to_radar_vector t r d2); [| reflexivity].
  cbn [bind]. apply np_div_zero.
Qed.

(** ** C2 *)

(** C2. For every velocity vector [v], Cartesian points [i], [r], [t] with
    illuminator-to-target distance [d1 > 0] and target-to-receiver distance
    [d2 > 0], and wavelength [lambda > 0], the Doppler calculator returns
    exactly [-((v . (t - i)/d1) + (v . (t - r)/d2)) / lambda]: the negated sum
    of the projections of [v] onto the two unit line-of-sight vectors, divided
    by the wavelength. *)
Theorem C2_doppler_formula (v i r t : ndarray) (d1 d2 lambda : R) :
  0 < d1 -> 0 < d2 -> 0 < lambda ->
  fD v t i r d1 d2 lambda
  = Some (- (dot v (nd_scale (t - i)%nd (/ d1)) + dot v (nd_scale (t - r)%nd (/ d2)))
          / lambda).
Proof.
  intros H1 H2 Hl.
  rewrite fD_closed_form by lra. f_equal.
  unfold dot, nd_scale; cbn [x_ y_ z_]. field. repeat split; lra.
Qed.

Lemma C2_doppler_formula_witness :
  fD (array 3 0 4) (array 5 0 0) (array 0 0 0) (array 5 0 2) 5 2 (1 / 2)
  = Some 2.
Proof.
  rewrite (C2_doppler_formula (array 3 0 4) (array 0 0 0) (array 5 0 2)
             (array 5 0 0) 5 2 (1 / 2)) by lra.
  f_equal. unfold dot, nd_scale, nd_sub; cbn [x_ y_ z_]. field.
Defined.

(** ** The Doppler frequency and the wavelength *)

(** In exact arithmetic the Doppler frequency is inversely proportional to
    the wavelength: with wavelength [k * lambda], [k > 0], the computation
    yields the value obtained with wavelength [lambda], divided by [k]. *)
Lemma fD_inverse_wavelength
    (v t i r : ndarray) (rt rr lambda k : R) :
  0 < k ->
  fD v t i r rt rr (k * lambda)
  = (f <- fD v t i r rt rr lambda ;; np_div f k).
Proof.
  intros Hk. unfold fD.
  destruct (target_to_ioo_vector t i rt) as [ui |]; [| reflexivity].
  destruct (target_to_radar_vector t r rr) as [ur |]; [| reflexivity].
  cbn [bind]. unfold np_div at 1 2.
  destruct (Req_dec_T lambda 0) as [-> | Hl].
  - rewrite Rmult_0_r.
    destruct (Req_dec_T 0 0) as [_ | H]; [reflexivity | now elim H].
  - destruct (Req_dec_T (k * lambda) 0) as [H0 | _].
    + apply Rmult_integral in H0. destruct H0; [lra | contradiction].
    + cbn [bind]. rewrite np_div_finite by lra. f_equal. field. split; lra.
Qed.

(** ** A bound on the Doppler frequency *)




(** ** The speed vector *)

Lemma speed_vector_finite (q p : ndarray) (s : R) :
  q <> p ->
  speed_vector q p s
  = Some (nd_scale (nd_scale (q - p)%nd (/ l2norm (q - p)%nd)) s).
Proof.
  intros Hne. unfold speed_vector.
  assert (Hn : np_sqrt (np_sum (nd_pow (np_abs (q - p)%nd) 2)) = l2norm (q - p)%nd).
  { pose proof (dist_l2norm q p) as H. unfold dist in H. exact H. }
  rewrite Hn.
  assert (Hpos : l2norm (q - p)%nd <> 0).
  { rewrite <- dist_l2norm. apply Rgt_not_eq, dist_pos, Hne. }
  rewrite (nd_div_finite _ _ Hpos). cbn [bind]. reflexivity.
Qed.

Lemma speed_vector_degenerate (p : ndarray) (s : R) : speed_vector p p s = None.
Proof.
  unfold speed_vector.
  assert (Hn : np_sqrt (np_sum (nd_pow (np_abs (p - p)%nd) 2)) = 0).
  { pose proof (proj2 (dist_zero_iff p p) eq_refl) as H. exact H. }
  rewrite Hn, nd_div_zero. reflexivity.
Qed.

Lemma l2norm_unit_scaled (d : ndarray) (s : R) :
  d <> zeros -> 0 <= s ->
  l2norm (nd_scale (nd_scale d (/ l2norm d)) s) = s.
Proof.
  intros Hd Hs.
  assert (Hn : l2norm d <> 0) by (intros H; apply l2norm_zero_iff in H; contradiction).
  pose proof (l2norm_sqr d) as Hsq. unfold dot in Hsq.
  unfold l2norm at 1. unfold nd_scale; cbn [x_ y_ z_].
  replace (x_ d * / l2norm d * s * (x_ d * / l2norm d * s)
           + y_ d * / l2norm d * s * (y_ d * / l2norm d * s)
           + z_ d * / l2norm d * s * (z_ d * / l2norm d * s))
    with ((x_ d * x_ d + y_ d * y_ d + z_ d * z_ d)
          * / (l2norm d * l2norm d) * (s * s)) by (field; exact Hn).
  rewrite <- Hsq. rewrite Rinv_r by (apply Rmult_integral_contrapositive; auto).
  rewrite Rmult_1_l. apply sqrt_square, Hs.
Qed.

(** ** The speed-vector cell in exact arithmetic *)

(** For every speed > 0 and every heading the cell takes the probe point 1 m
    along the heading from [destination], converts the target position and
    the probe point to Cartesian with the same converter, forms the
    difference, normalises it to unit length and scales it by the speed; in
    exact arithmetic the vector it returns has Euclidean norm the speed
    whenever the two Cartesian points differ. *)
Lemma speed_vector_cell_norm
    (forward : EcefYou -> R -> R -> R -> ndarray)
    (destination : LatLonT -> R -> R -> LatLonT)
    (target_lat target_lon target_ele target_dir target_speed : R) :
  let probe := destination (LatLon target_lat target_lon) 1 target_dir in
  let p := forward ecef_converter target_lat target_lon target_ele in
  let q := forward ecef_converter (lat probe) (lon probe) target_ele in
  0 < target_speed ->
  q <> p ->
  exists v,
    speed_vector_cell forward destination
      target_lat target_lon target_ele target_dir target_speed = Some v /\
    v = nd_scale (nd_scale (q - p)%nd (/ l2norm (q - p)%nd)) target_speed /\
    l2norm (nd_scale (q - p)%nd (/ l2norm (q - p)%nd)) = 1 /\
    l2norm v = target_speed.
Proof.
  intros probe p q Hs Hne.
  exists (nd_scale (nd_scale (q - p)%nd (/ l2norm (q - p)%nd)) target_speed).
  assert (Hd : (q - p)%nd <> zeros)
    by (intros H; exact (Hne (proj1 (nd_sub_zero_iff q p) H))).
  split; [| split; [reflexivity | split]].
  - unfold speed_vector_cell, speed_vector_ecef, speed_vector_latlon, target_ecef.
    fold probe. apply speed_vector_finite, Hne.
  - pose proof (l2norm_unit_scaled (q - p)%nd 1 Hd ltac:(lra)) as H1.
    replace (nd_scale (nd_scale (q - p)%nd (/ l2norm (q - p)%nd)) 1)
      with (nd_scale (q - p)%nd (/ l2norm (q - p)%nd)) in H1; [exact H1 |].
    unfold nd_scale; cbn [x_ y_ z_]. f_equal; ring.
  - apply l2norm_unit_scaled; [exact Hd | lra].
Qed.

Lemma radians_0 : radians 0 = 0.
Proof. unfold radians. field. Qed.

Lemma sphere_forward (lat lon height : R) :
  EcefYou_forward ecef_converter lat lon height
  = array ((height + semi_major Sphere) * cos (radians lat) * cos (radians lon))
          ((height + semi_major Sphere) * cos (radians lat) * sin (radians lon))
          ((height + semi_major Sphere) * sin (radians lat)).
Proof.
  unfold EcefYou_forward, ecef_converter, ecc2, flattening; cbn [ecef_datum].
  replace (1 - 0 * (2 - 0) * (sin (radians lat) * sin (radians lat))) with 1 by ring.
  rewrite sqrt_1. f_equal; field.
Qed.

Lemma semi_major_Sphere_pos : 0 < semi_major Sphere.
Proof. unfold semi_major. lra. Qed.

Lemma forward_probe_differs :
  speed_vector_ecef EcefYou_forward destination_north 0 0 0 0
  <> target_ecef EcefYou_forward 0 0 0.
Proof.
  unfold speed_vector_ecef, speed_vector_latlon, target_ecef, destination_north, LatLon;
    cbn [lat lon datum].
  rewrite !sphere_forward. apply array_neq. right; right.
  rewrite radians_0, sin_0, Rmult_0_r.
  pose proof semi_major_Sphere_pos. pose proof PI_RGT_0.
  apply Rgt_not_eq, Rmult_lt_0_compat; [lra |].
  apply sin_gt_0; unfold radians; lra.
Qed.

(** ** C3 *)

(** At the centre of the sphere every latitude and longitude give the same
    Cartesian point. *)
Lemma sphere_forward_centre (lat lon : R) :
  EcefYou_forward ecef_converter lat lon (- semi_major Sphere) = zeros.
Proof.
  rewrite sphere_forward. unfold zeros. f_equal; ring.
Qed.

(** C3, as worded, fails twice.  The estimator has no zero-speed branch: for
    a target at elevation minus the sphere's radius the probe and the target
    coincide in Cartesian space, and the cell divides zero by zero although
    the speed is zero.  And with the target on the illuminator the Doppler
    value is not finite, zero speed or not. *)
Lemma C3_counterexample :
  speed_vector_cell EcefYou_forward destination_north
    47.515136 19.078176 (- semi_major Sphere) 0 0 = None /\
  speed_vector_cell EcefYou_forward destination_north
    47.515136 19.078176 (- semi_major Sphere) 0 0 <> Some zeros /\
  dopplerHz (array 0 0 1) (array 0 0 0) (array 0 0 0) (array 5 0 0) 0 (1 / 2) = None /\
  dopplerHz (array 0 0 1) (array 0 0 0) (array 0 0 0) (array 5 0 0) 0 (1 / 2) <> Some 0.
Proof.
  assert (H1 : speed_vector_cell EcefYou_forward destination_north
                 47.515136 19.078176 (- semi_major Sphere) 0 0 = None).
  { unfold speed_vector_cell, speed_vector_ecef, target_ecef.
    rewrite !sphere_forward_centre. apply speed_vector_degenerate. }
  assert (H2 : dopplerHz (array 0 0 1) (array 0 0 0) (array 0 0 0) (array 5 0 0)
                 0 (1 / 2) = None).
  { unfold dopplerHz.
    rewrite speed_vector_finite by (apply array_neq; right; right; lra).
    cbn [bind]. unfold Rt.
    rewrite (proj2 (dist_zero_iff (array 0 0 0) (array 0 0 0)) eq_refl).
    apply fD_degenerate_Rt. }
  rewrite H1, H2. repeat split; discriminate.
Qed.

(** C3 (amended). With [targetSpeed = 0] and a probe point that differs from
    the target in Cartesian space, the velocity estimator, which always runs
    its normalise step, returns the zero vector; if moreover the target
    coincides with neither the illuminator nor the receiver and the wavelength
    is not zero, [dopplerHz = 0], whatever the heading. *)
Theorem C3_zero_speed
    (forward : EcefYou -> R -> R -> R -> ndarray)
    (destination : LatLonT -> R -> R -> LatLonT)
    (target_lat target_lon target_ele target_dir wavelength : R)
    (ioo_ecef radar_ecef : ndarray) :
  let t := target_ecef forward target_lat target_lon target_ele in
  let q := speed_vector_ecef forward destination
             target_lat target_lon target_ele target_dir in
  q <> t ->
  speed_vector_cell forward destination
    target_lat target_lon target_ele target_dir 0 = Some zeros /\
  (t <> ioo_ecef -> t <> radar_ecef -> wavelength <> 0 ->
   dopplerHz q t ioo_ecef radar_ecef 0 wavelength = Some 0).
Proof.
  intros t q Hne.
  assert (Hv : speed_vector q t 0 = Some zeros).
  { rewrite speed_vector_finite by exact Hne.
    f_equal. unfold nd_scale, zeros; cbn [x_ y_ z_]. f_equal; ring. }
  split.
  - unfold speed_vector_cell. exact Hv.
  - intros Hi Hr Hl. unfold dopplerHz. rewrite Hv. cbn [bind].
    rewrite fD_closed_form.
    + f_equal. unfold dot, zeros; cbn [x_ y_ z_]. field.
      repeat split; try assumption.
      * apply Rgt_not_eq, dist_pos, Hr.
      * apply Rgt_not_eq, dist_pos, Hi.
    + apply Rgt_not_eq, dist_pos, Hi.
    + apply Rgt_not_eq, dist_pos, Hr.
    + exact Hl.
Qed.

Lemma C3_zero_speed_witness :
  speed_vector_cell EcefYou_forward destination_north 0 0 0 0 0 = Some zeros /\
  dopplerHz (speed_vector_ecef EcefYou_forward destination_north 0 0 0 0)
            (target_ecef EcefYou_forward 0 0 0) (array 0 0 0) (array 5 0 0)
            0 (1 / 2) = Some 0.
Proof.
  destruct (C3_zero_speed EcefYou_forward destination_north 0 0 0 0 (1 / 2)
              (array 0 0 0) (array 5 0 0) forward_probe_differs) as [H1 H2].
  pose proof semi_major_Sphere_pos as Hr. unfold semi_major in Hr.
  split; [exact H1 |]. apply H2.
  - unfold target_ecef. rewrite sphere_forward, radians_0, cos_0, sin_0.
    apply array_neq. left. unfold semi_major. lra.
  - unfold target_ecef. rewrite sphere_forward, radians_0, cos_0, sin_0.
    apply array_neq. left. unfold semi_major. lra.
  - lra.
Defined.

(** ** C4 *)

(** C4, as worded, fails: with the target on the illuminator, and also with
    all three points in one place, the Doppler cell returns a non-finite
    float; nothing is raised. *)
Lemma C4_counterexample :
  run_fD (array 1 0 0) (array 4 5 6) (array 4 5 6) (array 0 0 0) (1 / 2)
  = Returned None /\
  run_fD (array 1 0 0) (array 4 5 6) (array 4 5 6) (array 4 5 6) (1 / 2)
  = Returned None /\
  run_fD (array 1 0 0) (array 4 5 6) (array 4 5 6) (array 4 5 6) (1 / 2)
  <> Raised DegenerateGeometry.
Proof.
  unfold run_fD, Rt.
  rewrite (proj2 (dist_zero_iff (array 4 5 6) (array 4 5 6)) eq_refl).
  rewrite !fD_degenerate_Rt. repeat split; discriminate.
Qed.

(** C4 (amended). When the target coincides with the illuminator or with the
    receiver (a zero illuminator-to-target or target-to-receiver distance),
    the Doppler computation raises no error: it returns a non-finite float.
    The co-located case (target = illuminator = receiver) is one such input. *)
Theorem C4_degenerate_returns_nonfinite
    (v target_ecef ioo_ecef radar_ecef : ndarray) (wavelength : R) :
  Rt target_ecef ioo_ecef = 0 \/ Rr target_ecef radar_ecef = 0 ->
  run_fD v target_ecef ioo_ecef radar_ecef wavelength = Returned None.
Proof.
  intros [H | H]; unfold run_fD; rewrite H; f_equal.
  - apply fD_degenerate_Rt.
  - apply fD_degenerate_Rr.
Qed.

Lemma C4_degenerate_returns_nonfinite_witness :
  run_fD (array 1 0 0) (array 4 5 6) (array 4 5 6) (array 4 5 6) (1 / 2)
  = Returned None.
Proof.
  apply (C4_degenerate_returns_nonfinite (array 1 0 0) (array 4 5 6) (array 4 5 6)
           (array 4 5 6) (1 / 2)).
  left. exact (proj2 (dist_zero_iff (array 4 5 6) (array 4 5 6)) eq_refl).
Defined.

(** ** The derivative of the path length *)





(** ** C7 *)



(** ** C8 *)

(** C8 does not hold of the notebook.  Both conversions to Cartesian go
    through the one spherical converter, but the probe point between them
    comes from [ellipsoidalVincenty], on the WGS84 ellipsoid: the speed-vector
    cell mixes two reference surfaces, for every target. *)
Theorem C8_surfaces_mixed (target_lat target_lon : R) :
  surfaces_of_speed_vector target_lat target_lon = [Sphere; WGS84; Sphere] /\
  same_surface (surfaces_of_speed_vector target_lat target_lon) = false /\
  datum (LatLon target_lat target_lon) <> ecef_datum ecef_converter.
Proof.
  repeat split. cbn. discriminate.
Qed.

(** ** Bearing: the range of [atan2] *)

Lemma atan2_range (y x : R) : - PI < atan2 y x <= PI.
Proof.
  pose proof PI_RGT_0 as Hpi.
  pose proof (atan_bound (y / x)) as [Hlo Hhi].
  unfold atan2.
  destruct (Rlt_dec 0 x) as [Hx | Hx]; [lra |].
  destruct (Rlt_dec x 0) as [Hx' | Hx'].
  - destruct (Rle_dec 0 y) as [Hy | Hy].
    + assert (y / x <= 0).
      { pose proof (Rinv_lt_0_compat x Hx') as Hi. unfold Rdiv. nra. }
      assert (atan (y / x) <= 0).
      { rewrite <- atan_0. destruct H as [H | ->]; [left; apply atan_increasing, H | right; reflexivity]. }
      lra.
    + assert (0 < y / x).
      { unfold Rdiv.
        replace (y * / x) with ((- y) * / (- x)) by (field; lra).
        apply Rmult_lt_0_compat; [lra |]. apply Rinv_0_lt_compat. lra. }
      assert (0 < atan (y / x)) by (rewrite <- atan_0; apply atan_increasing, H).
      lra.
  - destruct (Rlt_dec 0 y); [lra |]. destruct (Rlt_dec y 0); lra.
Qed.

(** * Part IV: the rational bounds are sound *)

(** ** Rounding *)

Lemma rdn_le (q : Q) : Q2R (rdn q) <= Q2R q.
Proof.
  apply Qle_Rle. unfold rdn, Qle; cbn [Qnum Qden].
  destruct q as [n d]; cbn [Qnum Qden].
  pose proof (Z.mul_div_le (n * Zpos grid) (Zpos d) ltac:(lia)). lia.
Qed.

Lemma rup_ge (q : Q) : Q2R q <= Q2R (rup q).
Proof.
  unfold rup. rewrite Q2R_opp. pose proof (rdn_le (- q)) as H.
  rewrite Q2R_opp in H. lra.
Qed.

(** ** The series in rational and in real arithmetic *)

Lemma Q2R_qpow (q : Q) (n : nat) : Q2R (qpow q n) = Q2R q ^ n.
Proof.
  induction n as [| n IH]; cbn [qpow pow].
  - unfold Q2R; cbn. lra.
  - rewrite Q2R_mult, IH. reflexivity.
Qed.

Lemma IZR_zfact (n : nat) : IZR (zfact n) = INR (fact n).
Proof.
  induction n as [| n IH].
  - reflexivity.
  - rewrite fact_simpl, mult_INR. cbn [zfact].
    rewrite mult_IZR, IH, <- INR_IZR_INZ. reflexivity.
Qed.

Lemma zfact_pos (n : nat) : (0 < zfact n)%Z.
Proof. induction n as [| n IH]; cbn [zfact]; lia. Qed.

Lemma Q2R_inject_Z (z : Z) : Q2R (inject_Z z) = IZR z.
Proof. unfold Q2R, inject_Z; cbn. lra. Qed.

Lemma inject_Z_nonzero (z : Z) : z <> 0%Z -> ~ (inject_Z z == 0)%Q.
Proof. intros H E. unfold Qeq, inject_Z in E; cbn in E. lia. Qed.

Lemma Q2R_sumQ (f : nat -> Q) (n : nat) :
  Q2R (sumQ f n) = sum_f_R0 (fun i => Q2R (f i)) n.
Proof.
  induction n as [| n IH]; cbn [sumQ sum_f_R0].
  - reflexivity.
  - rewrite Q2R_plus, IH. reflexivity.
Qed.

Lemma Q2R_m1 : Q2R (-1) = -1.
Proof. unfold Q2R; cbn. lra. Qed.

Lemma Q2R_sin_termQ (a : Q) (i : nat) :
  Q2R (sin_termQ a i) = sin_term (Q2R a) i.
Proof.
  unfold sin_termQ, sin_term.
  rewrite Q2R_mult, Q2R_div, !Q2R_qpow, Q2R_m1, Q2R_inject_Z, IZR_zfact.
  - reflexivity.
  - apply inject_Z_nonzero. pose proof (zfact_pos (2 * i + 1)). lia.
Qed.

Lemma Q2R_cos_termQ (a : Q) (i : nat) :
  Q2R (cos_termQ a i) = cos_term (Q2R a) i.
Proof.
  unfold cos_termQ, cos_term.
  rewrite Q2R_mult, Q2R_div, !Q2R_qpow, Q2R_m1, Q2R_inject_Z, IZR_zfact.
  - reflexivity.
  - apply inject_Z_nonzero. pose proof (zfact_pos (2 * i)). lia.
Qed.

Lemma Q2R_sin_approxQ (a : Q) (n : nat) :
  Q2R (sin_approxQ a n) = sin_approx (Q2R a) n.
Proof.
  unfold sin_approxQ, sin_approx. rewrite Q2R_sumQ.
  apply sum_eq. intros i _. apply Q2R_sin_termQ.
Qed.

Lemma Q2R_cos_approxQ (a : Q) (n : nat) :
  Q2R (cos_approxQ a n) = cos_approx (Q2R a) n.
Proof.
  unfold cos_approxQ, cos_approx. rewrite Q2R_sumQ.
  apply sum_eq. intros i _. apply Q2R_cos_termQ.
Qed.

Lemma Q2R_ratan_seqQ (p : positive) (n : nat) :
  Q2R (ratan_seqQ (1 # p) n) = Ratan_seq (/ IZR (Zpos p)) n.
Proof.
  unfold ratan_seqQ, Ratan_seq.
  rewrite Q2R_div, Q2R_qpow, Q2R_inject_Z, <- INR_IZR_INZ.
  - f_equal. f_equal. unfold Q2R; cbn. lra.
  - apply inject_Z_nonzero. lia.
Qed.

Lemma Q2R_pi_tgQ (n : nat) : Q2R (pi_tgQ n) = tg_alt PI_2_3_7_tg n.
Proof.
  unfold pi_tgQ, tg_alt, PI_2_3_7_tg.
  rewrite Q2R_mult, Q2R_qpow, Q2R_m1, Q2R_plus, Q2R_mult, !Q2R_ratan_seqQ.
  f_equal. f_equal. f_equal. unfold Q2R; cbn. lra.
Qed.

(** ** Bounds on [PI] *)

Lemma pi_series_check :
  Qle_bool pi_lo (4 * sumQ pi_tgQ 17) = true /\
  Qle_bool (4 * sumQ pi_tgQ 16) pi_hi = true.
Proof. split; vm_compute; reflexivity. Qed.

Lemma pi_bounds : Q2R pi_lo <= PI <= Q2R pi_hi.
Proof.
  pose proof (PI_2_3_7_ineq 8) as [Hlo Hhi].
  change (S (2 * 8)) with 17%nat in Hlo. change (2 * 8)%nat with 16%nat in Hhi.
  rewrite <- (sum_eq (fun i => Q2R (pi_tgQ i)) _ 17) in Hlo
    by (intros; apply Q2R_pi_tgQ).
  rewrite <- (sum_eq (fun i => Q2R (pi_tgQ i)) _ 16) in Hhi
    by (intros; apply Q2R_pi_tgQ).
  rewrite <- Q2R_sumQ in Hlo, Hhi.
  destruct pi_series_check as [Hd Hu].
  apply Qle_bool_iff, Qle_Rle in Hd. apply Qle_bool_iff, Qle_Rle in Hu.
  rewrite Q2R_mult in Hd, Hu.
  replace (Q2R 4) with 4 in Hd, Hu by (unfold Q2R; cbn; lra).
  lra.
Qed.

(** ** Interval operations *)

Lemma Qle_bool_Rle (a b : Q) : Qle_bool a b = true -> Q2R a <= Q2R b.
Proof. intros H. apply Qle_Rle, Qle_bool_iff, H. Qed.

Lemma qmin_l (a b : Q) : Q2R (qmin a b) <= Q2R a.
Proof.
  unfold qmin. destruct (Qle_bool a b) eqn:E; [lra |].
  apply Qle_Rle. apply Qlt_le_weak, Qnot_le_lt. intros H.
  apply Qle_bool_iff in H. congruence.
Qed.

Lemma qmin_r (a b : Q) : Q2R (qmin a b) <= Q2R b.
Proof.
  unfold qmin. destruct (Qle_bool a b) eqn:E; [apply Qle_bool_Rle, E | lra].
Qed.

Lemma qmax_l (a b : Q) : Q2R a <= Q2R (qmax a b).
Proof.
  unfold qmax. destruct (Qle_bool a b) eqn:E; [apply Qle_bool_Rle, E | lra].
Qed.

Lemma qmax_r (a b : Q) : Q2R b <= Q2R (qmax a b).
Proof.
  unfold qmax. destruct (Qle_bool a b) eqn:E; [lra |].
  apply Qle_Rle. apply Qlt_le_weak, Qnot_le_lt. intros H.
  apply Qle_bool_iff in H. congruence.
Qed.

Lemma mem_ipoint (q : Q) : mem (Q2R q) (ipoint q).
Proof. unfold mem, ipoint; cbn [lo hi]. lra. Qed.

Lemma mem_iadd (x y : R) (I J : itv) : mem x I -> mem y J -> mem (x + y) (iadd I J).
Proof. unfold mem, iadd; cbn [lo hi]. rewrite !Q2R_plus. lra. Qed.

Lemma mem_isub (x y : R) (I J : itv) : mem x I -> mem y J -> mem (x - y) (isub I J).
Proof. unfold mem, isub; cbn [lo hi]. rewrite !Q2R_minus. lra. Qed.

Lemma scale_between (k y c d : R) :
  c <= y <= d ->
  (k * c <= k * y \/ k * d <= k * y) /\ (k * y <= k * c \/ k * y <= k * d).
Proof.
  intros [H1 H2]. destruct (Rle_dec 0 k) as [Hk | Hk].
  - split; [left | right]; apply Rmult_le_compat_l; assumption.
  - assert (Hk' : 0 <= - k) by lra.
    pose proof (Rmult_le_compat_l _ _ _ Hk' H1).
    pose proof (Rmult_le_compat_l _ _ _ Hk' H2).
    split; [right | left]; lra.
Qed.

Lemma mul_between (x y a b c d : R) :
  a <= x <= b -> c <= y <= d ->
  (a * c <= x * y \/ a * d <= x * y \/ b * c <= x * y \/ b * d <= x * y) /\
  (x * y <= a * c \/ x * y <= a * d \/ x * y <= b * c \/ x * y <= b * d).
Proof.
  intros Hx Hy.
  destruct (scale_between a y c d Hy) as [Hal Hau].
  destruct (scale_between b y c d Hy) as [Hbl Hbu].
  destruct (scale_between y x a b Hx) as [Hyl Hyu].
  rewrite !(Rmult_comm y) in Hyl, Hyu.
  split.
  - destruct Hyl as [H | H].
    + destruct Hal as [H' | H']; [left | right; left]; lra.
    + destruct Hbl as [H' | H']; [right; right; left | right; right; right]; lra.
  - destruct Hyu as [H | H].
    + destruct Hau as [H' | H']; [left | right; left]; lra.
    + destruct Hbu as [H' | H']; [right; right; left | right; right; right]; lra.
Qed.

Lemma mem_imul (x y : R) (I J : itv) : mem x I -> mem y J -> mem (x * y) (imul I J).
Proof.
  unfold mem. intros HI HJ.
  destruct (mul_between _ _ _ _ _ _ HI HJ) as [Hlo Hhi].
  unfold imul; cbn [lo hi]. rewrite <- !Q2R_mult in Hlo, Hhi.
  set (a := (lo I * lo J)%Q) in *. set (b := (lo I * hi J)%Q) in *.
  set (c := (hi I * lo J)%Q) in *. set (d := (hi I * hi J)%Q) in *.
  pose proof (qmin_l (qmin a b) (qmin c d)). pose proof (qmin_r (qmin a b) (qmin c d)).
  pose proof (qmin_l a b). pose proof (qmin_r a b).
  pose proof (qmin_l c d). pose proof (qmin_r c d).
  pose proof (qmax_l (qmax a b) (qmax c d)). pose proof (qmax_r (qmax a b) (qmax c d)).
  pose proof (qmax_l a b). pose proof (qmax_r a b).
  pose proof (qmax_l c d). pose proof (qmax_r c d).
  split.
  - destruct Hlo as [? | [? | [? | ?]]]; lra.
  - destruct Hhi as [? | [? | [? | ?]]]; lra.
Qed.

Lemma mem_iround (x : R) (I : itv) : mem x I -> mem x (iround I).
Proof.
  unfold mem, iround; cbn [lo hi]. intros [H1 H2].
  pose proof (rdn_le (lo I)). pose proof (rup_ge (hi I)). lra.
Qed.

Lemma mem_within (x : R) (I : itv) (l u : Q) :
  mem x I -> within I l u = true -> Q2R l <= x <= Q2R u.
Proof.
  unfold mem, within. intros [H1 H2] H.
  apply andb_prop in H. destruct H as [Hl Hu].
  apply Qle_bool_Rle in Hl, Hu. lra.
Qed.

Lemma Q2R_0 : Q2R 0 = 0.
Proof. unfold Q2R; cbn. lra. Qed.

(** ** Sine and cosine *)

Lemma sumQ_le (f g : nat -> Q) (n : nat) :
  (forall i, Q2R (f i) <= Q2R (g i)) -> Q2R (sumQ f n) <= Q2R (sumQ g n).
Proof.
  intros H. induction n as [| n IH]; cbn [sumQ].
  - apply H.
  - rewrite !Q2R_plus. pose proof (H (S n)). lra.
Qed.

Lemma sin_dn_le (a : Q) (n : nat) : Q2R (sin_dn a n) <= sin_approx (Q2R a) n.
Proof.
  rewrite <- Q2R_sin_approxQ. apply sumQ_le. intros i. apply rdn_le.
Qed.

Lemma sin_up_ge (a : Q) (n : nat) : sin_approx (Q2R a) n <= Q2R (sin_up a n).
Proof.
  rewrite <- Q2R_sin_approxQ. apply sumQ_le. intros i. apply rup_ge.
Qed.

Lemma cos_dn_le (a : Q) (n : nat) : Q2R (cos_dn a n) <= cos_approx (Q2R a) n.
Proof.
  rewrite <- Q2R_cos_approxQ. apply sumQ_le. intros i. apply rdn_le.
Qed.

Lemma cos_up_ge (a : Q) (n : nat) : cos_approx (Q2R a) n <= Q2R (cos_up a n).
Proof.
  rewrite <- Q2R_cos_approxQ. apply sumQ_le. intros i. apply rup_ge.
Qed.

Lemma radians_enclosure (D : itv) (delta : R) :
  deg_ok D = true -> mem delta D ->
  0 <= Q2R (rad_lo (lo D)) <= delta * PI / 180 /\
  delta * PI / 180 <= Q2R (rad_hi (hi D)) <= PI / 2.
Proof.
  unfold deg_ok, mem. intros Hok [H1 H2].
  apply andb_prop in Hok. destruct Hok as [Hok H3].
  apply andb_prop in Hok. destruct Hok as [Hok Hh].
  apply andb_prop in Hok. destruct Hok as [H0 Hl].
  apply Qle_bool_Rle in H0, Hl, Hh, H3.
  rewrite Q2R_0 in H0, Hl.
  replace (Q2R 3) with 3 in H3 by (unfold Q2R; cbn; lra).
  rewrite Q2R_div in Hh by (intros H; discriminate H).
  replace (Q2R 2) with 2 in Hh by (unfold Q2R; cbn; lra).
  destruct pi_bounds as [Hpl Hph].
  pose proof (rdn_le (lo D * pi_lo / 180)) as Hrl.
  pose proof (rup_ge (hi D * pi_hi / 180)) as Hrh.
  rewrite Q2R_div, Q2R_mult in Hrl, Hrh by (intros H; discriminate H).
  replace (Q2R 180) with 180 in Hrl, Hrh by (unfold Q2R; cbn; lra).
  fold (rad_lo (lo D)) in Hrl. fold (rad_hi (hi D)) in Hrh.
  set (pl := Q2R pi_lo) in *. set (ph := Q2R pi_hi) in *.
  set (a := Q2R (lo D)) in *. set (b := Q2R (hi D)) in *.
  assert (a * pl <= delta * PI) by nra.
  assert (delta * PI <= b * ph) by nra.
  lra.
Qed.

Theorem trig_enclosure (D : itv) (delta : R) :
  deg_ok D = true -> mem delta D ->
  mem (sin (delta * PI / 180)) (sin_itv D) /\
  mem (cos (delta * PI / 180)) (cos_itv D).
Proof.
  intros Hok HD.
  destruct (radians_enclosure D delta Hok HD) as [[Hl0 Hl] [Hh Hh2]].
  pose proof PI_RGT_0 as Hpi. pose proof PI_4 as Hpi4.
  set (x := delta * PI / 180) in *.
  pose proof (sin_dn_le (rad_lo (lo D)) 7) as Hs1.
  pose proof (sin_up_ge (rad_hi (hi D)) 8) as Hs2.
  pose proof (cos_dn_le (rad_hi (hi D)) 7) as Hc1.
  pose proof (cos_up_ge (rad_lo (lo D)) 8) as Hc2.
  set (xl := Q2R (rad_lo (lo D))) in *. set (xh := Q2R (rad_hi (hi D))) in *.
  change 7%nat with (2 * 3 + 1)%nat in Hs1, Hc1.
  change 8%nat with (2 * (3 + 1))%nat in Hs2, Hc2.
  split; apply mem_iround; unfold mem; cbn [lo hi]; split.
  - eapply Rle_trans; [exact Hs1 |]. apply Rle_trans with (sin xl).
    + apply (pre_sin_bound xl 3); lra.
    + apply sin_incr_1; lra.
  - eapply Rle_trans; [| exact Hs2]. apply Rle_trans with (sin xh).
    + apply sin_incr_1; lra.
    + apply (pre_sin_bound xh 3); lra.
  - eapply Rle_trans; [exact Hc1 |]. apply Rle_trans with (cos xh).
    + apply (pre_cos_bound xh 3); lra.
    + apply cos_decr_1; lra.
  - eapply Rle_trans; [| exact Hc2]. apply Rle_trans with (cos xl).
    + apply cos_decr_1; lra.
    + apply (pre_cos_bound xl 3); lra.
Qed.

(** ** Expressions *)

Lemma mem_nth (env : list R) (ienv : list itv) (n : nat) :
  Forall2 mem env ienv -> mem (nth n env 0) (nth n ienv (ipoint 0)).
Proof.
  intros H. revert n. induction H as [| x I env ienv HxI _ IH]; intros n.
  - destruct n; cbn [nth]; rewrite <- Q2R_0 at 1; apply mem_ipoint.
  - destruct n as [| n]; cbn [nth]; [exact HxI | apply IH].
Qed.

Theorem ieval_correct (env : list R) (ienv : list itv) (e : expr) :
  Forall2 mem env ienv -> mem (eval env e) (ieval ienv e).
Proof.
  intros H. induction e as [n | q | a IHa b IHb | a IHa b IHb | a IHa b IHb];
    cbn [eval ieval].
  - apply mem_nth, H.
  - apply mem_ipoint.
  - apply mem_iround, mem_iadd; assumption.
  - apply mem_iround, mem_isub; assumption.
  - apply mem_iround, mem_imul; assumption.
Qed.

Corollary ieval_within (env : list R) (ienv : list itv) (e : expr) (l u : Q) :
  Forall2 mem env ienv -> within (ieval ienv e) l u = true ->
  Q2R l <= eval env e <= Q2R u.
Proof.
  intros H Hw. eapply mem_within; [apply ieval_correct, H | exact Hw].
Qed.

(** ** Square roots and reciprocals *)

Lemma sqrt_between (l u x : R) :
  0 <= l -> l * l <= x <= u * u -> 0 <= u -> l <= sqrt x <= u.
Proof.
  intros Hl [H1 H2] Hu. split.
  - rewrite <- (sqrt_square l Hl). apply sqrt_le_1_alt, H1.
  - rewrite <- (sqrt_square u Hu). apply sqrt_le_1_alt, H2.
Qed.

Lemma positive_itv_lo (I : itv) : positive_itv I = true -> 0 < Q2R (lo I).
Proof.
  unfold positive_itv. intros H. apply Bool.negb_true_iff in H.
  rewrite <- Q2R_0. apply Qlt_Rlt, Qnot_le_lt. intros Hle.
  apply Qle_bool_iff in Hle. congruence.
Qed.

Lemma mem_iinv (x : R) (I : itv) :
  positive_itv I = true -> mem x I -> mem (/ x) (iinv I).
Proof.
  intros Hp [H1 H2]. pose proof (positive_itv_lo I Hp) as Hlo.
  assert (Hhi : 0 < Q2R (hi I)) by lra.
  unfold mem, iinv; cbn [lo hi].
  pose proof (rdn_le (/ hi I)) as Hd. pose proof (rup_ge (/ lo I)) as Hu.
  rewrite Q2R_inv in Hd, Hu
    by (intros E; apply Qeq_eqR in E; rewrite Q2R_0 in E; lra).
  split.
  - eapply Rle_trans; [exact Hd |]. apply Rinv_le_contravar; lra.
  - eapply Rle_trans; [| exact Hu]. apply Rinv_le_contravar; lra.
Qed.

(** * Part V: the notebook's example *)

(** ** The table of sines and cosines *)

Lemma sincos_point (d : Q) (S C : itv) :
  deg_ok (ipoint d) = true ->
  sincos_itv (ipoint d) = (S, C) ->
  mem (sin (radians (Q2R d))) S /\ mem (cos (radians (Q2R d))) C.
Proof.
  intros Hok E. unfold sincos_itv in E. inversion E; subst S C.
  apply trig_enclosure; [exact Hok | apply mem_ipoint].
Qed.

Lemma sc_ioo_lat_ok :
  mem (sin (radians Notebook.ioo_lat)) (fst sc_ioo_lat) /\
  mem (cos (radians Notebook.ioo_lat)) (snd sc_ioo_lat).
Proof. apply (sincos_point 47.49166667); vm_compute; reflexivity. Qed.

Lemma sc_ioo_lon_ok :
  mem (sin (radians Notebook.ioo_lon)) (fst sc_ioo_lon) /\
  mem (cos (radians Notebook.ioo_lon)) (snd sc_ioo_lon).
Proof. apply (sincos_point 18.97888889); vm_compute; reflexivity. Qed.

Lemma sc_radar_lat_ok :
  mem (sin (radians Notebook.radar_lat)) (fst sc_radar_lat) /\
  mem (cos (radians Notebook.radar_lat)) (snd sc_radar_lat).
Proof. apply (sincos_point 47.501807); vm_compute; reflexivity. Qed.

Lemma sc_radar_lon_ok :
  mem (sin (radians Notebook.radar_lon)) (fst sc_radar_lon) /\
  mem (cos (radians Notebook.radar_lon)) (snd sc_radar_lon).
Proof. apply (sincos_point 19.034006); vm_compute; reflexivity. Qed.

Lemma sc_target_lat_ok :
  mem (sin (radians Notebook.target_lat)) (fst sc_target_lat) /\
  mem (cos (radians Notebook.target_lat)) (snd sc_target_lat).
Proof. apply (sincos_point 47.515136); vm_compute; reflexivity. Qed.

Lemma sc_target_lon_ok :
  mem (sin (radians Notebook.target_lon)) (fst sc_target_lon) /\
  mem (cos (radians Notebook.target_lon)) (snd sc_target_lon).
Proof. apply (sincos_point 19.078176); vm_compute; reflexivity. Qed.

(** ** Cell 2 on the example: distances, bistatic range, delay *)

Lemma mem_point_eq (x : R) (q : Q) : x = Q2R q -> mem x (ipoint q).
Proof. intros ->. apply mem_ipoint. Qed.

Lemma env_ienv : Forall2 mem env ienv.
Proof.
  unfold env, ienv.
  destruct sc_ioo_lat_ok, sc_ioo_lon_ok, sc_radar_lat_ok, sc_radar_lon_ok,
    sc_target_lat_ok, sc_target_lon_ok.
  repeat (apply Forall2_cons; [first [assumption | idtac] |]); try apply Forall2_nil.
  - apply mem_point_eq. unfold Notebook.ioo_ele, semi_major. lra.
  - apply mem_point_eq. unfold Notebook.radar_ele, semi_major. lra.
  - apply mem_point_eq. unfold Notebook.target_ele, semi_major. lra.
Qed.

Lemma L_eval :
  L Notebook.radar_ecef Notebook.ioo_ecef = sqrt (eval env (dist2 5 0)).
Proof.
  unfold L. rewrite dist_l2norm. unfold l2norm. f_equal.
  unfold Notebook.radar_ecef, Notebook.ioo_ecef. rewrite !sphere_forward.
  unfold nd_sub; cbn [x_ y_ z_]. cbn [eval dist2 sq ecef_x ecef_y ecef_z Nat.add nth env].
  ring.
Qed.

Lemma dist_within (a b : ndarray) (e : expr) (l u : Q) :
  dist a b = sqrt (eval env e) ->
  within (ieval ienv e) (l * l) (u * u) = true ->
  Qle_bool 0 l = true -> Qle_bool 0 u = true ->
  Q2R l <= dist a b <= Q2R u.
Proof.
  intros E Hw Hl Hu. rewrite E.
  apply Qle_bool_Rle in Hl, Hu. rewrite Q2R_0 in Hl, Hu.
  pose proof (ieval_within env ienv e _ _ env_ienv Hw) as H.
  rewrite !Q2R_mult in H.
  apply sqrt_between; assumption.
Qed.

Lemma Rt_eval :
  Rt Notebook.target_ecef Notebook.ioo_ecef = sqrt (eval env (dist2 10 0)).
Proof.
  unfold Rt. rewrite dist_l2norm. unfold l2norm. f_equal.
  unfold Notebook.target_ecef, Notebook.ioo_ecef. rewrite !sphere_forward.
  unfold nd_sub; cbn [x_ y_ z_]. cbn [eval dist2 sq ecef_x ecef_y ecef_z Nat.add nth env].
  ring.
Qed.

Lemma Rr_eval :
  Rr Notebook.target_ecef Notebook.radar_ecef = sqrt (eval env (dist2 10 5)).
Proof.
  unfold Rr. rewrite dist_l2norm. unfold l2norm. f_equal.
  unfold Notebook.target_ecef, Notebook.radar_ecef. rewrite !sphere_forward.
  unfold nd_sub; cbn [x_ y_ z_]. cbn [eval dist2 sq ecef_x ecef_y ecef_z Nat.add nth env].
  ring.
Qed.

Lemma L_bounds :
  4317.4863 <= L Notebook.radar_ecef Notebook.ioo_ecef <= 4317.4864.
Proof.
  apply (dist_within _ _ (dist2 5 0) 4317.4863 4317.4864 L_eval);
    vm_compute; reflexivity.
Qed.

Lemma Rt_bounds :
  7919.8681 <= Rt Notebook.target_ecef Notebook.ioo_ecef <= 7919.8682.
Proof.
  apply (dist_within _ _ (dist2 10 0) 7919.8681 7919.8682 Rt_eval);
    vm_compute; reflexivity.
Qed.

Lemma Rr_bounds :
  3634.2197 <= Rr Notebook.target_ecef Notebook.radar_ecef <= 3634.2198.
Proof.
  apply (dist_within _ _ (dist2 10 5) 3634.2197 3634.2198 Rr_eval);
    vm_compute; reflexivity.
Qed.

(** X1. On the notebook's example the distances are those the notebook
    prints: baseline 4317.5 m, IoO to target 7919.9 m, target to radar
    3634.2 m, bistatic distance 7236.6 m, each to the printed decimal. *)
Theorem example_distances :
  let g := solve Notebook.ioo_ecef Notebook.radar_ecef Notebook.target_ecef in
  Rabs (baseline g - 4317.5) <= 0.05 /\
  Rabs (illuminatorToTarget g - 7919.9) <= 0.05 /\
  Rabs (targetToReceiver g - 3634.2) <= 0.05 /\
  Rabs (bistaticRange g - 7236.6) <= 0.05.
Proof.
  cbn [solve baseline illuminatorToTarget targetToReceiver bistaticRange].
  unfold Rb.
  pose proof L_bounds. pose proof Rt_bounds. pose proof Rr_bounds.
  repeat split; apply Rabs_le; lra.
Qed.

(** X8. The observable time delay of the example is the printed 241.2
    samples. *)
Theorem example_tau :
  exists t,
    tau (Rb Notebook.ioo_ecef Notebook.radar_ecef Notebook.target_ecef) = Some t /\
    Rabs (t - 241.2) <= 0.05.
Proof.
  pose proof L_bounds. pose proof Rt_bounds. pose proof Rr_bounds.
  unfold tau. rewrite np_div_finite by (unfold c; lra).
  eexists. split; [reflexivity |].
  unfold Rb, fs, c. apply Rabs_le. lra.
Qed.

(** X6. The model of [forward] yields the coordinates the notebook prints in
    cell 1 for the target, [4066672.98023294 1406477.26777827
    4698416.91233034], to a micrometre. *)
Theorem example_target_ecef :
  Rabs (x_ Notebook.target_ecef - 4066672.98023294) <= 0.000001 /\
  Rabs (y_ Notebook.target_ecef - 1406477.26777827) <= 0.000001 /\
  Rabs (z_ Notebook.target_ecef - 4698416.91233034) <= 0.000001.
Proof.
  pose proof env_ienv as He.
  pose proof (ieval_within _ _ (ecef_x 10) 4066672.98023244 4066672.98023344 He
                ltac:(vm_compute; reflexivity)) as Hx.
  pose proof (ieval_within _ _ (ecef_y 10) 1406477.26777777 1406477.26777877 He
                ltac:(vm_compute; reflexivity)) as Hy.
  pose proof (ieval_within _ _ (ecef_z 10) 4698416.91232984 4698416.91233084 He
                ltac:(vm_compute; reflexivity)) as Hz.
  unfold Notebook.target_ecef. rewrite sphere_forward. cbn [x_ y_ z_].
  cbn [eval ecef_x ecef_y ecef_z Nat.add nth env] in Hx, Hy, Hz.
  repeat split; apply Rabs_le; lra.
Qed.

(** ** Cell 3 on the example: heading north *)

Lemma l2norm_north_unit (psi lam : R) : l2norm (north_unit psi lam) = 1.
Proof.
  unfold l2norm, north_unit; cbn [x_ y_ z_].
  replace (- sin psi * cos lam * (- sin psi * cos lam)
           + - sin psi * sin lam * (- sin psi * sin lam) + cos psi * cos psi)
    with (Rsqr (sin psi) * (Rsqr (sin lam) + Rsqr (cos lam)) + Rsqr (cos psi))
    by (unfold Rsqr; ring).
  rewrite sin2_cos2, Rmult_1_r, sin2_cos2. apply sqrt_1.
Qed.

Lemma sphere_chord (lat lat' lon h : R) :
  (EcefYou_forward ecef_converter lat' lon h
   - EcefYou_forward ecef_converter lat lon h)%nd
  = nd_scale (north_unit (radians ((lat + lat') / 2)) (radians lon))
             (2 * (h + semi_major Sphere) * sin (radians ((lat' - lat) / 2))).
Proof.
  rewrite !sphere_forward. unfold nd_sub, nd_scale, north_unit; cbn [x_ y_ z_].
  assert (E1 : (radians lat' - radians lat) / 2 = radians ((lat' - lat) / 2))
    by (unfold radians; field).
  assert (E2 : (radians lat' + radians lat) / 2 = radians ((lat + lat') / 2))
    by (unfold radians; field).
  pose proof (form2 (radians lat') (radians lat)) as Hc.
  pose proof (form4 (radians lat') (radians lat)) as Hs.
  rewrite E1, E2 in Hc, Hs.
  set (rho := h + semi_major Sphere).
  f_equal.
  - replace (rho * cos (radians lat') * cos (radians lon)
             - rho * cos (radians lat) * cos (radians lon))
      with (rho * cos (radians lon) * (cos (radians lat') - cos (radians lat))) by ring.
    rewrite Hc. ring.
  - replace (rho * cos (radians lat') * sin (radians lon)
             - rho * cos (radians lat) * sin (radians lon))
      with (rho * sin (radians lon) * (cos (radians lat') - cos (radians lat))) by ring.
    rewrite Hc. ring.
  - replace (rho * sin (radians lat') - rho * sin (radians lat))
      with (rho * (sin (radians lat') - sin (radians lat))) by ring.
    rewrite Hs. ring.
Qed.

Lemma speed_vector_along (n q p : ndarray) (k s : R) :
  l2norm n = 1 -> 0 < k -> (q - p)%nd = nd_scale n k ->
  speed_vector q p s = Some (nd_scale n s).
Proof.
  intros Hn Hk E.
  assert (Hnorm : l2norm (q - p)%nd = k).
  { rewrite E. unfold l2norm, nd_scale; cbn [x_ y_ z_].
    replace (x_ n * k * (x_ n * k) + y_ n * k * (y_ n * k) + z_ n * k * (z_ n * k))
      with (dot n n * (k * k)) by (unfold dot; ring).
    rewrite <- l2norm_sqr, Hn, !Rmult_1_l. apply sqrt_square. lra. }
  assert (Hne : q <> p).
  { intros ->. pose proof (proj2 (dist_zero_iff p p) eq_refl) as H0.
    rewrite dist_l2norm, Hnorm in H0. lra. }
  rewrite (speed_vector_finite q p s Hne), Hnorm, E. f_equal.
  unfold nd_scale; cbn [x_ y_ z_]. f_equal; field; lra.
Qed.

Lemma speed_vector_north
    (destination : LatLonT -> R -> R -> LatLonT) (lat0 lon0 h s : R) :
  probe_due_north destination lat0 lon0 ->
  0 < h + semi_major Sphere ->
  speed_vector_cell EcefYou_forward destination lat0 lon0 h 0 s
  = Some (nd_scale
            (north_unit
               (radians ((lat0 + lat (destination (LatLon lat0 lon0) 1 0)) / 2))
               (radians lon0))
            s).
Proof.
  unfold probe_due_north. cbv zeta. intros [Hlon [Hlo Hhi]] Hrho.
  unfold speed_vector_cell, speed_vector_ecef, speed_vector_latlon, target_ecef.
  cbv zeta. set (p := destination (LatLon lat0 lon0) 1 0) in *.
  rewrite Hlon.
  eapply speed_vector_along; [apply l2norm_north_unit | | apply sphere_chord].
  pose proof PI_RGT_0 as Hpi.
  apply Rmult_lt_0_compat; [lra |].
  apply sin_gt_0; unfold radians.
  - apply Rdiv_lt_0_compat; [| lra]. apply Rmult_lt_0_compat; lra.
  - assert ((lat p - lat0) / 2 * PI <= 1 * PI) by (apply Rmult_le_compat_r; lra).
    lra.
Qed.

Lemma probe_due_north_destination_north (lat0 lon0 : R) :
  probe_due_north destination_north lat0 lon0.
Proof.
  unfold probe_due_north, destination_north, LatLon; cbn [lat lon datum]. lra.
Qed.

(** ** Bounds for the heading-north speed vector and for [1/Rt], [1/Rr] *)

Lemma sc_psi_ok (psi_deg : R) :
  mem psi_deg (mkitv 47.515136 47.515186) ->
  mem (sin (radians psi_deg)) (fst sc_psi) /\ mem (cos (radians psi_deg)) (snd sc_psi).
Proof.
  intros H.
  assert (E : sincos_itv (mkitv 47.515136 47.515186) = sc_psi)
    by (vm_compute; reflexivity).
  rewrite <- E. apply trig_enclosure; [vm_compute; reflexivity | exact H].
Qed.

Lemma inv_Rt_ok : mem (/ Rt Notebook.target_ecef Notebook.ioo_ecef) inv_Rt.
Proof.
  assert (E : iinv (mkitv 7919.8681 7919.8682) = inv_Rt) by (vm_compute; reflexivity).
  rewrite <- E. apply mem_iinv; [vm_compute; reflexivity |].
  exact Rt_bounds.
Qed.

Lemma inv_Rr_ok : mem (/ Rr Notebook.target_ecef Notebook.radar_ecef) inv_Rr.
Proof.
  assert (E : iinv (mkitv 3634.2197 3634.2198) = inv_Rr) by (vm_compute; reflexivity).
  rewrite <- E. apply mem_iinv; [vm_compute; reflexivity |].
  exact Rr_bounds.
Qed.

Lemma env_ienv_doppler (psi_deg : R) :
  mem psi_deg (mkitv 47.515136 47.515186) ->
  Forall2 mem (env_doppler (radians psi_deg)) ienv_doppler.
Proof.
  intros H. destruct (sc_psi_ok psi_deg H).
  apply Forall2_app; [apply env_ienv |].
  repeat (apply Forall2_cons; [first [assumption | apply inv_Rt_ok | apply inv_Rr_ok] |]).
  apply Forall2_nil.
Qed.

(** X7. With the probe due north, the speed vector of the example is the
    one the notebook prints, [-6.96949954 -2.41043298 6.75395358], to
    [1e-5]. *)
Theorem example_speed_vector (destination : LatLonT -> R -> R -> LatLonT) :
  probe_due_north destination Notebook.target_lat Notebook.target_lon ->
  exists v,
    speed_vector_cell EcefYou_forward destination Notebook.target_lat
      Notebook.target_lon Notebook.target_ele Notebook.target_dir
      Notebook.target_speed = Some v /\
    Rabs (x_ v - (-6.96949954)) <= 0.00001 /\
    Rabs (y_ v - (-2.41043298)) <= 0.00001 /\
    Rabs (z_ v - 6.75395358) <= 0.00001.
Proof.
  intros Hp.
  set (psi_deg := (Notebook.target_lat
                   + lat (destination (LatLon Notebook.target_lat Notebook.target_lon) 1 0)) / 2).
  assert (Hpsi : mem psi_deg (mkitv 47.515136 47.515186)).
  { destruct Hp as [_ [H1 H2]]. unfold mem; cbn [lo hi]. unfold psi_deg.
    unfold Notebook.target_lat in *. lra. }
  eexists. split.
  - unfold Notebook.target_dir.
    apply (speed_vector_north destination _ _ _ _ Hp).
    unfold Notebook.target_ele, semi_major; lra.
  - fold psi_deg.
    pose proof (env_ienv_doppler psi_deg Hpsi) as He.
    pose proof (ieval_within _ _ (Mul (Mul (Var 15) (Var 14)) (Cst (-10)))
                  (-6.96950954) (-6.96948954) He ltac:(vm_compute; reflexivity)) as Hx.
    pose proof (ieval_within _ _ (Mul (Mul (Var 15) (Var 13)) (Cst (-10)))
                  (-2.41044298) (-2.41042298) He ltac:(vm_compute; reflexivity)) as Hy.
    pose proof (ieval_within _ _ (Mul (Var 16) (Cst 10))
                  6.75394358 6.75396358 He ltac:(vm_compute; reflexivity)) as Hz.
    cbn [eval Nat.add nth env env_doppler app] in Hx, Hy, Hz.
    unfold nd_scale, north_unit, Notebook.target_speed; cbn [x_ y_ z_].
    replace (Q2R (-10)) with (-10) in Hx, Hy by lra.
    replace (Q2R 10) with 10 in Hz by lra.
    repeat split; apply Rabs_le; lra.
Qed.

Lemma example_speed_vector_witness :
  exists v,
    speed_vector_cell EcefYou_forward destination_north Notebook.target_lat
      Notebook.target_lon Notebook.target_ele Notebook.target_dir
      Notebook.target_speed = Some v /\
    Rabs (x_ v - (-6.96949954)) <= 0.00001 /\
    Rabs (y_ v - (-2.41043298)) <= 0.00001 /\
    Rabs (z_ v - 6.75395358) <= 0.00001.
Proof.
  apply (example_speed_vector destination_north).
  apply probe_due_north_destination_north.
Defined.

(** ** Cell 4 on the example *)

Lemma fD_eval (psi : R) :
  fD (nd_scale (north_unit psi (radians Notebook.target_lon)) Notebook.target_speed)
     Notebook.target_ecef Notebook.ioo_ecef Notebook.radar_ecef
     (Rt Notebook.target_ecef Notebook.ioo_ecef)
     (Rr Notebook.target_ecef Notebook.radar_ecef) Notebook.wavelength
  = Some (eval (env_doppler psi) fD_expr).
Proof.
  pose proof Rt_bounds as Ht. pose proof Rr_bounds as Hr.
  cbn [eval fD_expr dot_north ecef_x ecef_y ecef_z Nat.add nth env env_doppler app].
  set (rt := Rt _ _) in *. set (rr := Rr _ _) in *.
  rewrite fD_closed_form by (unfold Notebook.wavelength; lra).
  f_equal.
  unfold Notebook.target_ecef, Notebook.ioo_ecef, Notebook.radar_ecef.
  rewrite !sphere_forward.
  unfold dot, nd_scale, nd_sub, north_unit; cbn [x_ y_ z_].
  unfold Notebook.wavelength, Notebook.target_speed.
  replace (Q2R (-1)) with (-1) by lra.
  replace (Q2R (-20)) with (-20) by lra.
  replace 0.5 with (/ 2) by lra.
  field. split; lra.
Qed.

(** X2. With the probe due north, the Doppler frequency of the example is
    the printed -14.7 Hz, to the printed decimal. *)
Theorem example_doppler (destination : LatLonT -> R -> R -> LatLonT) :
  probe_due_north destination Notebook.target_lat Notebook.target_lon ->
  exists f,
    dopplerHz
      (speed_vector_ecef EcefYou_forward destination Notebook.target_lat
         Notebook.target_lon Notebook.target_ele Notebook.target_dir)
      Notebook.target_ecef Notebook.ioo_ecef Notebook.radar_ecef
      Notebook.target_speed Notebook.wavelength = Some f /\
    Rabs (f - (-14.7)) <= 0.05.
Proof.
  intros Hp.
  set (psi_deg := (Notebook.target_lat
                   + lat (destination (LatLon Notebook.target_lat Notebook.target_lon) 1 0)) / 2).
  assert (Hpsi : mem psi_deg (mkitv 47.515136 47.515186)).
  { destruct Hp as [_ [H1 H2]]. unfold mem; cbn [lo hi]. unfold psi_deg.
    unfold Notebook.target_lat in *. lra. }
  exists (eval (env_doppler (radians psi_deg)) fD_expr). split.
  - unfold dopplerHz.
    change (speed_vector _ Notebook.target_ecef Notebook.target_speed)
      with (speed_vector_cell EcefYou_forward destination Notebook.target_lat
              Notebook.target_lon Notebook.target_ele 0 Notebook.target_speed).
    rewrite (speed_vector_north destination _ _ _ _ Hp)
      by (unfold Notebook.target_ele, semi_major; lra).
    cbn [bind]. fold psi_deg. apply fD_eval.
  - pose proof (ieval_within _ _ fD_expr (-14.74) (-14.72)
                  (env_ienv_doppler psi_deg Hpsi)) as H.
    assert (Hw : within (ieval ienv_doppler fD_expr) (-14.74) (-14.72) = true)
      by (vm_compute; reflexivity).
    specialize (H Hw). apply Rabs_le. lra.
Qed.

Lemma example_doppler_witness :
  exists f,
    dopplerHz
      (speed_vector_ecef EcefYou_forward destination_north Notebook.target_lat
         Notebook.target_lon Notebook.target_ele Notebook.target_dir)
      Notebook.target_ecef Notebook.ioo_ecef Notebook.radar_ecef
      Notebook.target_speed Notebook.wavelength = Some f /\
    Rabs (f - (-14.7)) <= 0.05.
Proof.
  apply (example_doppler destination_north).
  apply probe_due_north_destination_north.
Defined.

(** ** The bearing of the example *)

Lemma atan_le (x y : R) : x <= y -> atan x <= atan y.
Proof.
  intros [H | ->]; [left; apply atan_increasing, H | right; reflexivity].
Qed.

Lemma atan_between (a b beta1 beta2 : R) :
  0 < b ->
  - (PI / 2) < beta1 < PI / 2 -> - (PI / 2) < beta2 < PI / 2 ->
  b * sin beta1 <= a * cos beta1 ->
  a * cos beta2 <= b * sin beta2 ->
  beta1 <= atan (a / b) <= beta2.
Proof.
  intros Hb H1 H2 Hlo Hhi.
  assert (Hc1 : 0 < cos beta1) by (apply cos_gt_0; lra).
  assert (Hc2 : 0 < cos beta2) by (apply cos_gt_0; lra).
  split.
  - rewrite <- (atan_tan beta1 H1) at 1. apply atan_le. unfold tan.
    apply (Rmult_le_reg_r (cos beta1 * b)); [apply Rmult_lt_0_compat; assumption |].
    replace (sin beta1 / cos beta1 * (cos beta1 * b)) with (b * sin beta1) by (field; lra).
    replace (a / b * (cos beta1 * b)) with (a * cos beta1) by (field; lra).
    exact Hlo.
  - rewrite <- (atan_tan beta2 H2) at 1. apply atan_le. unfold tan.
    apply (Rmult_le_reg_r (cos beta2 * b)); [apply Rmult_lt_0_compat; assumption |].
    replace (sin beta2 / cos beta2 * (cos beta2 * b)) with (b * sin beta2) by (field; lra).
    replace (a / b * (cos beta2 * b)) with (a * cos beta2) by (field; lra).
    exact Hhi.
Qed.

Lemma degrees_radians (d : R) : degrees (radians d) = d.
Proof. unfold degrees, radians. field. apply Rgt_not_eq, PI_RGT_0. Qed.

Lemma degrees_le (a b : R) : a <= b -> degrees a <= degrees b.
Proof.
  intros H. unfold degrees. pose proof PI_RGT_0 as Hpi.
  apply Rmult_le_compat_r; [left; apply Rinv_0_lt_compat, Hpi | lra].
Qed.

Lemma sc_dlon_ok :
  mem (sin (radians Notebook.target_lon - radians Notebook.radar_lon)) (fst sc_dlon) /\
  mem (cos (radians Notebook.target_lon - radians Notebook.radar_lon)) (snd sc_dlon).
Proof.
  replace (radians Notebook.target_lon - radians Notebook.radar_lon)
    with (radians (Q2R 0.04417))
    by (unfold radians, Notebook.target_lon, Notebook.radar_lon; lra).
  apply (sincos_point 0.04417); vm_compute; reflexivity.
Qed.

Lemma sc_beta1_ok :
  mem (sin (radians 24.08)) (fst sc_beta1) /\ mem (cos (radians 24.08)) (snd sc_beta1).
Proof. apply (sincos_point 24.08); vm_compute; reflexivity. Qed.

Lemma sc_beta2_ok :
  mem (sin (radians 24.09)) (fst sc_beta2) /\ mem (cos (radians 24.09)) (snd sc_beta2).
Proof. apply (sincos_point 24.09); vm_compute; reflexivity. Qed.

Lemma env_ienv_bearing : Forall2 mem env_bearing ienv_bearing.
Proof.
  unfold env_bearing, ienv_bearing.
  destruct sc_radar_lat_ok, sc_target_lat_ok, sc_dlon_ok, sc_beta1_ok, sc_beta2_ok.
  repeat (apply Forall2_cons; [assumption |]). apply Forall2_nil.
Qed.

(** X3. On the notebook's example the formula of line 254, evaluated from
    the receiver to the target and converted to degrees, lies between 24.08
    and 24.09: it is 24.1 degrees to the first decimal. *)
Theorem example_theta :
  24.08 <= degrees (theta (radians Notebook.radar_lat) (radians Notebook.radar_lon)
                          (radians Notebook.target_lat) (radians Notebook.target_lon))
        <= 24.09.
Proof.
  pose proof env_ienv_bearing as He.
  pose proof (ieval_within _ _ theta_x (1 # 10000) 1 He ltac:(vm_compute; reflexivity)) as Hx.
  pose proof (ieval_within _ _ (Sub (Mul theta_y (Var 7)) (Mul theta_x (Var 6)))
                0 1 He ltac:(vm_compute; reflexivity)) as H1.
  pose proof (ieval_within _ _ (Sub (Mul theta_x (Var 8)) (Mul theta_y (Var 9)))
                0 1 He ltac:(vm_compute; reflexivity)) as H2.
  cbn [eval theta_x theta_y nth env_bearing] in Hx, H1, H2.
  rewrite Q2R_0 in H1, H2.
  replace (Q2R (1 # 10000)) with (/ 10000) in Hx by (unfold Q2R; cbn; lra).
  unfold theta.
  set (a := cos (radians Notebook.radar_lat) * sin (radians Notebook.target_lat)
            - sin (radians Notebook.radar_lat) * cos (radians Notebook.target_lat)
              * cos (radians Notebook.target_lon - radians Notebook.radar_lon)) in *.
  set (b := sin (radians Notebook.target_lon - radians Notebook.radar_lon)
            * cos (radians Notebook.target_lat)) in *.
  assert (Hb : 0 < b) by lra.
  unfold atan2. destruct (Rlt_dec 0 b) as [_ | Hn]; [| contradiction].
  pose proof PI_RGT_0 as Hpi.
  assert (Hr : forall d, 0 <= d <= 89 -> - (PI / 2) < radians d < PI / 2).
  { intros d Hd. unfold radians. split; nra. }
  destruct (atan_between a b (radians 24.08) (radians 24.09) Hb) as [Hlo Hhi].
  - apply Hr. lra.
  - apply Hr. lra.
  - lra.
  - lra.
  - apply degrees_le in Hlo, Hhi. rewrite degrees_radians in Hlo, Hhi. lra.
Qed.

(** * Part VI: further properties of the cells *)

(** ** Vector facts *)

Lemma nd_eq_dec (a b : ndarray) : {a = b} + {a <> b}.
Proof.
  destruct (Req_dec_T (dist a b) 0) as [E | N].
  - left. apply dist_zero_iff, E.
  - right. intros H. apply N, dist_zero_iff, H.
Qed.


Lemma l2norm_scale (v : ndarray) (k : R) : l2norm (nd_scale v k) = Rabs k * l2norm v.
Proof.
  unfold l2norm, nd_scale; cbn [x_ y_ z_].
  replace (x_ v * k * (x_ v * k) + y_ v * k * (y_ v * k) + z_ v * k * (z_ v * k))
    with (Rsqr k * (x_ v * x_ v + y_ v * y_ v + z_ v * z_ v)) by (unfold Rsqr; ring).
  rewrite sqrt_mult; [| apply Rle_0_sqr | apply sumsq_nonneg].
  rewrite sqrt_Rsqr_abs. reflexivity.
Qed.

Lemma nd_sub_translate (a b w : ndarray) : ((a + w) - (b + w))%nd = (a - b)%nd.
Proof. unfold nd_sub, nd_add; cbn [x_ y_ z_]. f_equal; ring. Qed.

Lemma dist_translate (a b w : ndarray) : dist (a + w)%nd (b + w)%nd = dist a b.
Proof. unfold dist. rewrite nd_sub_translate. reflexivity. Qed.



(** Equality in the Cauchy-Schwarz inequality: the two vectors point the
    same way. *)
Lemma nd_parallel (a b : ndarray) :
  dot a b = l2norm a * l2norm b -> nd_scale a (l2norm b) = nd_scale b (l2norm a).
Proof.
  intros H.
  apply (proj1 (nd_sub_zero_iff _ _)), (proj1 (l2norm_zero_iff _)).
  assert (E : l2norm (nd_scale a (l2norm b) - nd_scale b (l2norm a))%nd
              * l2norm (nd_scale a (l2norm b) - nd_scale b (l2norm a))%nd = 0).
  { rewrite l2norm_sqr.
    replace (dot (nd_scale a (l2norm b) - nd_scale b (l2norm a))%nd
                 (nd_scale a (l2norm b) - nd_scale b (l2norm a))%nd)
      with (dot a a * (l2norm b * l2norm b) + dot b b * (l2norm a * l2norm a)
            - 2 * (l2norm a * l2norm b) * dot a b)
      by (unfold dot, nd_sub, nd_scale; cbn [x_ y_ z_]; ring).
    rewrite H, <- !l2norm_sqr. ring. }
  apply Rmult_integral in E. destruct E; assumption.
Qed.

(** ** When the cells leave the finite numbers *)

(** X10. The normalisation of cell 3 yields a non-finite speed vector exactly
    when the probe point and the target have the same Cartesian coordinates,
    whatever the speed. *)
Theorem speed_vector_nonfinite_iff (speed_vector_ecef target_ecef : ndarray)
    (target_speed : R) :
  speed_vector speed_vector_ecef target_ecef target_speed = None
  <-> speed_vector_ecef = target_ecef.
Proof.
  split.
  - intros H. destruct (nd_eq_dec speed_vector_ecef target_ecef) as [E | N];
      [exact E |].
    rewrite (speed_vector_finite _ _ _ N) in H. discriminate H.
  - intros ->. apply speed_vector_degenerate.
Qed.

(** X11. Cell 4 yields a non-finite Doppler frequency exactly when one of
    its three divisors, [Rt], [Rr] or the wavelength, is zero. *)
Theorem fD_nonfinite_iff (v t i r : ndarray) (d1 d2 wavelength : R) :
  fD v t i r d1 d2 wavelength = None <-> d1 = 0 \/ d2 = 0 \/ wavelength = 0.
Proof.
  split.
  - intros H.
    destruct (Req_dec_T d1 0) as [E1 | N1]; [tauto |].
    destruct (Req_dec_T d2 0) as [E2 | N2]; [tauto |].
    destruct (Req_dec_T wavelength 0) as [E3 | N3]; [tauto |].
    rewrite fD_closed_form in H by assumption. discriminate H.
  - intros [-> | [-> | ->]].
    + apply fD_degenerate_Rt.
    + apply fD_degenerate_Rr.
    + apply fD_zero_wavelength.
Qed.

(** X12. Cells 2 to 4 chained: the Doppler frequency is non-finite exactly
    when the probe point coincides with the target, the target coincides
    with the illuminator or with the receiver, or the wavelength is zero. *)
Theorem dopplerHz_nonfinite_iff
    (speed_vector_ecef target_ecef ioo_ecef radar_ecef : ndarray)
    (target_speed wavelength : R) :
  dopplerHz speed_vector_ecef target_ecef ioo_ecef radar_ecef target_speed wavelength
  = None
  <-> speed_vector_ecef = target_ecef \/ target_ecef = ioo_ecef
      \/ target_ecef = radar_ecef \/ wavelength = 0.
Proof.
  unfold dopplerHz, Rt, Rr. split.
  - intros H.
    destruct (nd_eq_dec speed_vector_ecef target_ecef) as [E | N]; [tauto |].
    rewrite (speed_vector_finite _ _ _ N) in H. cbn [bind] in H. right.
    destruct (Req_dec_T (dist target_ecef ioo_ecef) 0) as [E1 | N1];
      [left; apply dist_zero_iff, E1 |].
    destruct (Req_dec_T (dist target_ecef radar_ecef) 0) as [E2 | N2];
      [right; left; apply dist_zero_iff, E2 |].
    destruct (Req_dec_T wavelength 0) as [E3 | N3]; [tauto |].
    rewrite fD_closed_form in H by assumption. discriminate H.
  - intros [-> | [E | [E | ->]]].
    + rewrite speed_vector_degenerate. reflexivity.
    + destruct (speed_vector _ _ _); [cbn [bind] | reflexivity].
      rewrite (proj2 (dist_zero_iff _ _) E). apply fD_degenerate_Rt.
    + destruct (speed_vector _ _ _); [cbn [bind] | reflexivity].
      rewrite (proj2 (dist_zero_iff _ _) E). apply fD_degenerate_Rr.
    + destruct (speed_vector _ _ _); [cbn [bind] | reflexivity].
      apply fD_zero_wavelength.
Qed.

(** ** The bistatic distance *)



(** In exact arithmetic the bistatic distance is zero exactly when the
    target lies on the segment from the illuminator to the receiver. *)
Lemma Rb_zero_iff (i r t : ndarray) :
  Rb i r t = 0
  <-> exists s, 0 <= s <= 1 /\ t = (i + nd_scale (r - i) s)%nd.
Proof.
  unfold Rb, Rt, Rr, L. rewrite !dist_l2norm.
  set (a := (t - i)%nd). set (b := (r - t)%nd).
  assert (Hb : l2norm (t - r)%nd = l2norm b).
  { unfold b. rewrite <- !dist_l2norm. apply dist_sym. }
  assert (Hab : (r - i)%nd = (b + a)%nd).
  { unfold a, b, nd_add, nd_sub; cbn [x_ y_ z_]. f_equal; ring. }
  rewrite Hb, Hab.
  pose proof (l2norm_nonneg a) as Ha0. pose proof (l2norm_nonneg b) as Hb0.
  pose proof (l2norm_nonneg (b + a)%nd) as Hc0.
  split.
  - intros H.
    assert (Hsum : l2norm (b + a)%nd = l2norm a + l2norm b) by lra.
    assert (Hdot : dot a b = l2norm a * l2norm b).
    { pose proof (l2norm_sqr (b + a)%nd) as Hsq. rewrite Hsum in Hsq.
      replace (dot (b + a)%nd (b + a)%nd) with (dot a a + 2 * dot a b + dot b b) in Hsq
        by (unfold dot, nd_add; cbn [x_ y_ z_]; ring).
      rewrite <- !l2norm_sqr in Hsq. lra. }
    pose proof (nd_parallel a b Hdot) as Hpar.
    destruct (Req_dec_T (l2norm (b + a)%nd) 0) as [Z | N].
    + exists 0. split; [lra |].
      assert (Za : l2norm a = 0) by lra.
      apply (proj1 (l2norm_zero_iff _)) in Za. unfold a in Za.
      apply (proj1 (nd_sub_zero_iff _ _)) in Za.
      transitivity i; [exact Za |].
      assert (X : forall u w, u = (u + nd_scale w 0)%nd).
      { intros [u1 u2 u3] w. unfold nd_add, nd_scale; cbn [x_ y_ z_]. f_equal; ring. }
      apply X.
    + exists (l2norm a / l2norm (b + a)%nd). split.
      * split.
        -- apply Rmult_le_pos; [exact Ha0 | left; apply Rinv_0_lt_compat; lra].
        -- apply (Rmult_le_reg_r (l2norm (b + a)%nd)); [lra |].
           unfold Rdiv. rewrite Rmult_assoc, Rinv_l by exact N. lra.
      * assert (Ea : a = nd_scale (b + a)%nd (l2norm a / l2norm (b + a)%nd)).
        { assert (E1 : nd_scale a (l2norm (b + a)%nd)
                       = nd_scale (b + a)%nd (l2norm a)).
          { rewrite Hsum.
            replace (nd_scale a (l2norm a + l2norm b))
              with (nd_scale a (l2norm a) + nd_scale a (l2norm b))%nd
              by (unfold nd_add, nd_scale; cbn [x_ y_ z_]; f_equal; ring).
            rewrite Hpar. unfold nd_add, nd_scale; cbn [x_ y_ z_]. f_equal; ring. }
          replace a with (nd_scale (nd_scale a (l2norm (b + a)%nd)) (/ l2norm (b + a)%nd)) at 1.
          - rewrite E1. unfold nd_scale; cbn [x_ y_ z_]. f_equal; unfold Rdiv; ring.
          - destruct a as [a1 a2 a3]. unfold nd_scale; cbn [x_ y_ z_].
            f_equal; field; exact N. }
        unfold a at 1 in Ea.
        apply (f_equal (fun u => (u + i)%nd)) in Ea.
        replace ((t - i) + i)%nd with t in Ea
          by (destruct t as [t1 t2 t3], i as [i1 i2 i3];
              unfold nd_add, nd_sub; cbn [x_ y_ z_]; f_equal; ring).
        rewrite Ea. unfold nd_add; cbn [x_ y_ z_]. f_equal; ring.
  - intros [s [[Hs0 Hs1] Et]]. rewrite <- Hab in Et.
    assert (Ea : a = nd_scale (b + a)%nd s).
    { rewrite <- Hab. unfold a. rewrite Et at 1.
      unfold nd_add, nd_sub, nd_scale; cbn [x_ y_ z_]. f_equal; ring. }
    assert (Eb : b = nd_scale (b + a)%nd (1 - s)).
    { rewrite <- Hab. unfold b. rewrite Et at 1.
      unfold nd_add, nd_sub, nd_scale; cbn [x_ y_ z_]. f_equal; ring. }
    assert (Na : l2norm a = s * l2norm (b + a)%nd).
    { rewrite Ea at 1. rewrite l2norm_scale, Rabs_right by lra. reflexivity. }
    assert (Nb : l2norm b = (1 - s) * l2norm (b + a)%nd).
    { rewrite Eb at 1. rewrite l2norm_scale, Rabs_right by lra. reflexivity. }
    lra.
Qed.

(** ** Symmetries of range and Doppler *)

(** X17. Reciprocity: exchanging illuminator and receiver changes neither
    the bistatic distance nor the Doppler frequency. *)
Theorem reciprocity (v t i r : ndarray) (wavelength : R) :
  Rb i r t = Rb r i t /\
  fD v t i r (Rt t i) (Rr t r) wavelength = fD v t r i (Rt t r) (Rr t i) wavelength.
Proof.
  split.
  - unfold Rb, Rt, Rr, L. rewrite (dist_sym r i). ring.
  - unfold Rt, Rr.
    destruct (Req_dec_T (dist t i) 0) as [E1 | N1];
      [rewrite E1, fD_degenerate_Rt, fD_degenerate_Rr; reflexivity |].
    destruct (Req_dec_T (dist t r) 0) as [E2 | N2];
      [rewrite E2, fD_degenerate_Rt, fD_degenerate_Rr; reflexivity |].
    destruct (Req_dec_T wavelength 0) as [-> | N3];
      [rewrite !fD_zero_wavelength; reflexivity |].
    rewrite !fD_closed_form by assumption. f_equal. field. repeat split; assumption.
Qed.

(** X18. Change of origin: adding one and the same vector to the probe
    point, the target, the illuminator and the receiver changes none of the
    four distances of cell 2 and not the Doppler frequency. *)
Theorem translation_invariance
    (q t i r w : ndarray) (target_speed wavelength : R) :
  solve (i + w)%nd (r + w)%nd (t + w)%nd = solve i r t /\
  dopplerHz (q + w)%nd (t + w)%nd (i + w)%nd (r + w)%nd target_speed wavelength
  = dopplerHz q t i r target_speed wavelength.
Proof.
  split.
  - unfold solve, Rb, Rt, Rr, L. rewrite !dist_translate. reflexivity.
  - unfold dopplerHz, Rt, Rr, speed_vector, fD, target_to_ioo_vector,
      target_to_radar_vector.
    rewrite !dist_translate, !nd_sub_translate. reflexivity.
Qed.



(** ** The Doppler frequency as a function of the velocity *)






(** X22. Monostatic case: with the receiver at the illuminator the bistatic
    distance is twice the target distance and the Doppler frequency is
    [-2 / wavelength] times the radial component of the velocity. *)
Theorem monostatic (v t i : ndarray) (wavelength : R) :
  t <> i -> wavelength <> 0 ->
  Rb i i t = 2 * Rt t i /\
  fD v t i i (Rt t i) (Rr t i) wavelength
  = Some (- 2 * (dot v (t - i)%nd / Rt t i) / wavelength).
Proof.
  intros Hi Hl. pose proof (dist_pos t i Hi) as Hti.
  split.
  - unfold Rb, Rt, Rr, L. rewrite (proj2 (dist_zero_iff i i) eq_refl). ring.
  - unfold Rt, Rr. rewrite fD_closed_form by lra. f_equal. field. lra.
Qed.

Lemma monostatic_witness :
  Rb (array 0 0 0) (array 0 0 0) (array 3 0 0) = 2 * Rt (array 3 0 0) (array 0 0 0) /\
  fD (array 1 2 0) (array 3 0 0) (array 0 0 0) (array 0 0 0)
     (Rt (array 3 0 0) (array 0 0 0)) (Rr (array 3 0 0) (array 0 0 0)) (1 / 2)
  = Some (- 2 * (dot (array 1 2 0) (array 3 0 0 - array 0 0 0)%nd
                 / Rt (array 3 0 0) (array 0 0 0)) / (1 / 2)).
Proof.
  apply (monostatic (array 1 2 0) (array 3 0 0) (array 0 0 0) (1 / 2)).
  - apply array_neq. left. lra.
  - lra.
Defined.



(** ** The Doppler frequency as a function of speed and probe point *)












(** ** The bearing formula of line 254 *)

(** X28. The angle of line 254 is counted from east towards north: between
    two points of one meridian it is 90 degrees for the point to the north
    and -90 degrees for the point to the south; between two points of the
    equator it is 0 for the point to the east and 180 degrees for the point
    to the west. *)
Theorem theta_compass (lat lon d : R) :
  0 < d < PI ->
  theta lat lon (lat + d) lon = PI / 2 /\
  theta (lat + d) lon lat lon = - (PI / 2) /\
  theta 0 lon 0 (lon + d) = 0 /\
  theta 0 lon 0 (lon - d) = PI.
Proof.
  intros [Hd0 Hd1].
  pose proof (sin_gt_0 d Hd0 Hd1) as Hs.
  unfold theta.
  replace (lon - lon) with 0 by ring.
  replace (lon + d - lon) with d by ring.
  replace (lon - d - lon) with (- d) by ring.
  rewrite sin_0, cos_0, sin_neg, !Rmult_0_l, !Rmult_1_r.
  assert (E1 : cos lat * sin (lat + d) - sin lat * cos (lat + d) = sin d).
  { rewrite sin_plus, cos_plus.
    pose proof (sin2_cos2 lat) as E; unfold Rsqr in E.
    transitivity ((sin lat * sin lat + cos lat * cos lat) * sin d);
      [ring | rewrite E; ring]. }
  assert (E2 : cos (lat + d) * sin lat - sin (lat + d) * cos lat = - sin d)
    by (rewrite <- E1; ring).
  rewrite E1, E2.
  rewrite Rmult_0_r, Rminus_0_r.
  unfold atan2.
  repeat split.
  - destruct (Rlt_dec 0 0); [lra |]. destruct (Rlt_dec 0 (sin d)); [reflexivity | lra].
  - destruct (Rlt_dec 0 0); [lra |]. destruct (Rlt_dec 0 (- sin d)); [lra |].
    destruct (Rlt_dec (- sin d) 0); [reflexivity | lra].
  - destruct (Rlt_dec 0 (sin d)); [| lra].
    unfold Rdiv. rewrite Rmult_0_l. apply atan_0.
  - destruct (Rlt_dec 0 (- sin d)); [lra |].
    destruct (Rlt_dec (- sin d) 0); [| lra].
    destruct (Rle_dec 0 0); [| lra].
    unfold Rdiv. rewrite Rmult_0_l, atan_0. ring.
Qed.

Lemma theta_compass_witness :
  theta 0 0 (0 + 1) 0 = PI / 2 /\
  theta (0 + 1) 0 0 0 = - (PI / 2) /\
  theta 0 0 0 (0 + 1) = 0 /\
  theta 0 0 0 (0 - 1) = PI.
Proof.
  apply (theta_compass 0 0 1).
  pose proof PI2_1. lra.
Defined.

Lemma atan2_swap (y x : R) :
  0 < x \/ 0 < y -> atan2 y x + atan2 x y = PI / 2.
Proof.
  intros H. unfold atan2.
  destruct (Rlt_dec 0 x) as [Hx | Hx].
  - destruct (Rlt_dec 0 y) as [Hy | Hy].
    + replace (x / y) with (/ (y / x)) by (field; lra).
      rewrite atan_inv; [lra |]. apply Rdiv_lt_0_compat; assumption.
    + destruct (Rlt_dec y 0) as [Hy' | Hy'].
      * destruct (Rle_dec 0 x) as [_ | N]; [| lra].
        replace (x / y) with (- / (- y / x)) by (field; lra).
        rewrite atan_opp, atan_inv by (apply Rdiv_lt_0_compat; lra).
        replace (- y / x) with (- (y / x)) by (field; lra).
        rewrite atan_opp. lra.
      * assert (y = 0) by lra. subst y.
        unfold Rdiv. rewrite Rmult_0_l, atan_0. lra.
  - destruct (Rlt_dec 0 y) as [Hy | Hy]; [| lra].
    destruct (Rlt_dec x 0) as [Hx' | Hx'].
    + destruct (Rle_dec 0 y) as [_ | N]; [| lra].
      replace (x / y) with (- / (y / - x)) by (field; lra).
      rewrite atan_opp, atan_inv by (apply Rdiv_lt_0_compat; lra).
      replace (y / - x) with (- (y / x)) by (field; lra).
      rewrite atan_opp. lra.
    + assert (x = 0) by lra. subst x.
      unfold Rdiv. rewrite Rmult_0_l, atan_0. lra.
Qed.

(** X29. When at least one of the two arguments of [atan2] in line 254 is
    positive, the angle of line 254 and the angle obtained with the two
    arguments exchanged add up to 90 degrees. *)
Theorem theta_complement (lat1 lon1 lat2 lon2 : R) :
  0 < cos lat1 * sin lat2 - sin lat1 * cos lat2 * cos (lon2 - lon1)
  \/ 0 < sin (lon2 - lon1) * cos lat2 ->
  theta lat1 lon1 lat2 lon2
  + atan2 (sin (lon2 - lon1) * cos lat2)
          (cos lat1 * sin lat2 - sin lat1 * cos lat2 * cos (lon2 - lon1))
  = PI / 2.
Proof.
  intros H. unfold theta. apply atan2_swap. tauto.
Qed.

Lemma theta_complement_witness :
  theta 0 0 1 0
  + atan2 (sin (0 - 0) * cos 1)
          (cos 0 * sin 1 - sin 0 * cos 1 * cos (0 - 0))
  = PI / 2.
Proof.
  apply (theta_complement 0 0 1 0).
  left. rewrite sin_0, cos_0.
  assert (0 < sin 1) by (apply sin_gt_0; pose proof PI2_1; lra).
  lra.
Defined.

(** * Part VII: floating-point rounding *)

(** ** Rounding facts *)

Lemma Rabs_le_inv (a b : R) : Rabs a <= b -> - b <= a <= b.
Proof.
  intros H. pose proof (Rle_abs a) as H1. pose proof (Rle_abs (- a)) as H2.
  rewrite Rabs_Ropp in H2. lra.
Qed.

Section RoundingFacts.

Variable u : R.
Variable rnd : R -> R.
Hypothesis Hu : 0 <= u <= / 1000.
Hypothesis Hr : rounds_within u rnd.

Lemma rnd_nonneg_bounds (x : R) : 0 <= x -> (1 - u) * x <= rnd x <= (1 + u) * x.
Proof.
  intros Hx. pose proof (Hr x) as H. rewrite (Rabs_right x) in H by lra.
  apply Rabs_le_inv in H. lra.
Qed.

Lemma rnd_nonpos_bounds (x : R) : x <= 0 -> (1 + u) * x <= rnd x <= (1 - u) * x.
Proof.
  intros Hx. pose proof (Hr x) as H. rewrite (Rabs_left1 x) in H by lra.
  apply Rabs_le_inv in H. lra.
Qed.

Lemma rnd_zero_iff (x : R) : rnd x = 0 <-> x = 0.
Proof.
  split.
  - intros H. destruct (Rle_dec 0 x) as [Hx | Hx].
    + pose proof (rnd_nonneg_bounds x Hx). nra.
    + pose proof (rnd_nonpos_bounds x ltac:(lra)). nra.
  - intros ->. pose proof (rnd_nonneg_bounds 0 ltac:(lra)). lra.
Qed.

(** Every rounded value is the exact one times a factor in [1 - u, 1 + u]. *)
Lemma rnd_factor (x : R) : exists d, 1 - u <= d <= 1 + u /\ rnd x = x * d.
Proof.
  destruct (Req_dec_T x 0) as [-> | Hx].
  - exists 1. split; [lra |]. rewrite (proj2 (rnd_zero_iff 0) eq_refl). ring.
  - exists (rnd x / x). split; [| field; exact Hx].
    destruct (Rle_dec 0 x) as [H0 | H0].
    + pose proof (rnd_nonneg_bounds x H0) as [H1 H2].
      assert (Hp : 0 < x) by lra.
      split.
      * apply (Rmult_le_reg_r x); [exact Hp |].
        replace (rnd x / x * x) with (rnd x) by (field; exact Hx). lra.
      * apply (Rmult_le_reg_r x); [exact Hp |].
        replace (rnd x / x * x) with (rnd x) by (field; exact Hx). lra.
    + pose proof (rnd_nonpos_bounds x ltac:(lra)) as [H1 H2].
      assert (Hp : 0 < - x) by lra.
      split.
      * apply (Rmult_le_reg_r (- x)); [exact Hp |].
        replace (rnd x / x * - x) with (- rnd x) by (field; exact Hx). lra.
      * apply (Rmult_le_reg_r (- x)); [exact Hp |].
        replace (rnd x / x * - x) with (- rnd x) by (field; exact Hx). lra.
Qed.

Lemma lo_pos : 0 < 1 - u.
Proof. lra. Qed.

Lemma pow_lo_pos (k : nat) : 0 < (1 - u) ^ k.
Proof. apply pow_lt, lo_pos. Qed.

Lemma pow_lo_le_1 (k : nat) : (1 - u) ^ k <= 1.
Proof.
  induction k as [| k IH]; [simpl; lra |].
  simpl. pose proof (pow_lo_pos k). nra.
Qed.

Lemma pow_hi_ge_1 (k : nat) : 1 <= (1 + u) ^ k.
Proof. apply pow_R1_Rle. lra. Qed.

Lemma pow_lo_decr (j k : nat) : (j <= k)%nat -> (1 - u) ^ k <= (1 - u) ^ j.
Proof.
  intros H. replace k with (j + (k - j))%nat by lia. rewrite pow_add.
  pose proof (pow_lo_pos j). pose proof (pow_lo_le_1 (k - j)).
  pose proof (pow_lo_pos (k - j)). nra.
Qed.

Lemma pow_hi_incr (j k : nat) : (j <= k)%nat -> (1 + u) ^ j <= (1 + u) ^ k.
Proof. intros H. apply Rle_pow; [lra | exact H]. Qed.

Lemma approx_refl (x : R) : approx u 0 x x.
Proof. unfold approx. simpl. lra. Qed.

Lemma approx_nonneg (k : nat) (x y : R) : 0 <= x -> approx u k x y -> 0 <= y.
Proof.
  intros Hx [H _]. pose proof (pow_lo_pos k). 
  apply Rle_trans with ((1 - u) ^ k * x); [apply Rmult_le_pos; lra | exact H].
Qed.

Lemma approx_weaken (j k : nat) (x y : R) :
  (j <= k)%nat -> 0 <= x -> approx u j x y -> approx u k x y.
Proof.
  intros Hjk Hx [H1 H2]. split.
  - apply Rle_trans with ((1 - u) ^ j * x); [| exact H1].
    apply Rmult_le_compat_r; [exact Hx | apply pow_lo_decr, Hjk].
  - apply Rle_trans with ((1 + u) ^ j * x); [exact H2 |].
    apply Rmult_le_compat_r; [exact Hx | apply pow_hi_incr, Hjk].
Qed.

Lemma approx_rnd (k : nat) (x y : R) :
  0 <= x -> approx u k x y -> approx u (S k) x (rnd y).
Proof.
  intros Hx Ha. pose proof (approx_nonneg k x y Hx Ha) as Hy.
  destruct Ha as [H1 H2]. pose proof (rnd_nonneg_bounds y Hy) as [H3 H4].
  pose proof (pow_lo_pos k). pose proof (pow_hi_ge_1 k).
  split; simpl.
  - apply Rle_trans with ((1 - u) * y); [| exact H3].
    rewrite Rmult_assoc. apply Rmult_le_compat_l; lra.
  - apply Rle_trans with ((1 + u) * y); [exact H4 |].
    rewrite Rmult_assoc. apply Rmult_le_compat_l; lra.
Qed.

Lemma approx_add (k : nat) (x1 y1 x2 y2 : R) :
  approx u k x1 y1 -> approx u k x2 y2 -> approx u k (x1 + x2) (y1 + y2).
Proof. unfold approx. intros [A1 A2] [B1 B2]. split; lra. Qed.

Lemma approx_sqrt (k : nat) (x y : R) :
  0 <= x -> approx u (2 * k) x y -> approx u k (sqrt x) (sqrt y).
Proof.
  intros Hx [H1 H2].
  pose proof (pow_lo_pos k) as Hl. pose proof (pow_hi_ge_1 k) as Hh.
  assert (El : (1 - u) ^ (2 * k) = (1 - u) ^ k * (1 - u) ^ k)
    by (replace (2 * k)%nat with (k + k)%nat by lia; apply pow_add).
  assert (Eh : (1 + u) ^ (2 * k) = (1 + u) ^ k * (1 + u) ^ k)
    by (replace (2 * k)%nat with (k + k)%nat by lia; apply pow_add).
  rewrite El in H1. rewrite Eh in H2.
  split.
  - rewrite <- (sqrt_square ((1 - u) ^ k)) by lra.
    rewrite <- sqrt_mult_alt by nra. apply sqrt_le_1_alt. exact H1.
  - rewrite <- (sqrt_square ((1 + u) ^ k)) by lra.
    rewrite <- sqrt_mult_alt by nra. apply sqrt_le_1_alt. exact H2.
Qed.

(** Squares of a value and of the value times [j] rounding factors. *)
Lemma approx_sq (j : nat) (x f : R) :
  (1 - u) ^ j <= f <= (1 + u) ^ j ->
  approx u (2 * j) (x * x) (x * f * (x * f)).
Proof.
  intros [F1 F2]. pose proof (pow_lo_pos j) as Hl.
  replace (2 * j)%nat with (j + j)%nat by lia. unfold approx. rewrite !pow_add.
  replace (x * f * (x * f)) with (f * f * (x * x)) by ring.
  pose proof (Rle_0_sqr x) as Hx. unfold Rsqr in Hx.
  split; apply Rmult_le_compat_r; try exact Hx; nra.
Qed.

Lemma factor_1 (d : R) : 1 - u <= d <= 1 + u -> (1 - u) ^ 1 <= d <= (1 + u) ^ 1.
Proof. simpl. lra. Qed.

Lemma factor_mul (j k : nat) (f g : R) :
  (1 - u) ^ j <= f <= (1 + u) ^ j ->
  (1 - u) ^ k <= g <= (1 + u) ^ k ->
  (1 - u) ^ (j + k) <= f * g <= (1 + u) ^ (j + k).
Proof.
  intros [F1 F2] [G1 G2]. rewrite !pow_add.
  pose proof (pow_lo_pos j). pose proof (pow_lo_pos k).
  split.
  - apply Rmult_le_compat; lra.
  - apply Rmult_le_compat; lra.
Qed.

(** The norm as the code computes it, against the exact norm: three
    roundings. *)
Lemma norm_approx (v : ndarray) : approx u 3 (l2norm v) (Fl.norm rnd v).
Proof.
  unfold Fl.norm, Fl.np_sqrt, Fl.np_sum, Fl.nd_sq, np_abs, l2norm; cbn [x_ y_ z_].
  assert (Hsq : forall a, Rabs a * Rabs a = a * a).
  { intros a. rewrite <- Rabs_mult. apply Rabs_right.
    pose proof (Rle_0_sqr a) as H. unfold Rsqr in H. lra. }
  rewrite !Hsq.
  assert (Hp : forall a, 0 <= a * a)
    by (intros a; pose proof (Rle_0_sqr a) as H; unfold Rsqr in H; exact H).
  assert (H1 : forall a, approx u 1 (a * a) (rnd (a * a)))
    by (intros a; apply approx_rnd; [apply Hp | apply approx_refl]).
  pose proof (sumsq_nonneg v) as Hs.
  assert (H12 : approx u 2 (x_ v * x_ v + y_ v * y_ v)
                  (rnd (rnd (x_ v * x_ v) + rnd (y_ v * y_ v)))).
  { apply approx_rnd; [pose proof (Hp (x_ v)); pose proof (Hp (y_ v)); lra |].
    apply approx_add; apply H1. }
  assert (H3 : approx u 3 (x_ v * x_ v + y_ v * y_ v + z_ v * z_ v)
                 (rnd (rnd (rnd (x_ v * x_ v) + rnd (y_ v * y_ v)) + rnd (z_ v * z_ v)))).
  { apply approx_rnd; [exact Hs |].
    apply approx_add; [exact H12 |].
    apply (approx_weaken 1 2); [lia | apply Hp | apply H1]. }
  apply approx_rnd; [apply sqrt_pos |].
  apply approx_sqrt; [exact Hs |].
  apply (approx_weaken 3 (2 * 2)); [lia | exact Hs | exact H3].
Qed.

Lemma sub_sq_approx (a b : R) :
  approx u 2 ((a - b) * (a - b)) (rnd (a - b) * rnd (a - b)).
Proof.
  destruct (rnd_factor (a - b)) as (d & Hd & ->).
  apply (approx_sq 1). apply factor_1, Hd.
Qed.

(** The distance as the code computes it, against the exact distance: four
    roundings. *)
Lemma dist_approx (a b : ndarray) : approx u 4 (dist a b) (Fl.dist rnd a b).
Proof.
  unfold Fl.dist.
  pose proof (norm_approx (Fl.nd_sub rnd a b)) as [N1 N2].
  assert (Hl : approx u 1 (dist a b) (l2norm (Fl.nd_sub rnd a b))).
  { rewrite dist_l2norm. unfold l2norm.
    apply approx_sqrt; [apply sumsq_nonneg |].
    unfold Fl.nd_sub, nd_sub; cbn [x_ y_ z_].
    apply approx_add; [apply approx_add |]; apply sub_sq_approx. }
  destruct Hl as [L1 L2].
  pose proof (pow_lo_pos 3). pose proof (pow_hi_ge_1 3).
  pose proof (dist_nonneg a b).
  split.
  - change 4%nat with (3 + 1)%nat. rewrite pow_add, Rmult_assoc.
    apply Rle_trans with ((1 - u) ^ 3 * l2norm (Fl.nd_sub rnd a b)); [| exact N1].
    apply Rmult_le_compat_l; lra.
  - change 4%nat with (3 + 1)%nat. rewrite pow_add, Rmult_assoc.
    apply Rle_trans with ((1 + u) ^ 3 * l2norm (Fl.nd_sub rnd a b)); [exact N2 |].
    apply Rmult_le_compat_l; lra.
Qed.

End RoundingFacts.

(** ** The rounded cells against the exact ones *)

Section RoundedCells.

Variable u : R.
Variable rnd : R -> R.
Hypothesis Hu : 0 <= u <= / 1000.
Hypothesis Hr : rounds_within u rnd.

Lemma pow_lo_bernoulli (k : nat) : 1 - INR k * u <= (1 - u) ^ k.
Proof.
  induction k as [| k IH]; [simpl; lra |].
  rewrite S_INR. simpl.
  pose proof (pow_lo_le_1 u Hu k). pose proof (pow_lo_pos u Hu k). nra.
Qed.

Lemma pow_hi_step (k : nat) (a : R) :
  (1 + u) ^ k <= 1 + a * u -> 0 <= a ->
  (1 + u) ^ S k <= 1 + (a + 1 + a / 1000) * u.
Proof.
  intros H Ha. simpl.
  apply Rle_trans with ((1 + u) * (1 + a * u)).
  - apply Rmult_le_compat_l; lra.
  - assert (Hau : 0 <= a * u) by (apply Rmult_le_pos; lra).
    assert (Hd : 0 <= / 1000 - u) by lra.
    pose proof (Rmult_le_pos _ _ Hau Hd) as Hp.
    lra.
Qed.

Lemma pow_hi_5 : (1 + u) ^ 5 <= 1 + 5.1 * u.
Proof.
  assert (H1 : (1 + u) ^ 1 <= 1 + 1 * u) by (simpl; lra).
  pose proof (pow_hi_step 1 _ H1) as H2; specialize (H2 ltac:(lra)).
  pose proof (pow_hi_step 2 _ H2) as H3; specialize (H3 ltac:(lra)).
  pose proof (pow_hi_step 3 _ H3) as H4; specialize (H4 ltac:(lra)).
  pose proof (pow_hi_step 4 _ H4) as H5; specialize (H5 ltac:(lra)).
  eapply Rle_trans; [exact H5 |]. lra.
Qed.

Lemma pow_hi_4 : (1 + u) ^ 4 <= 1 + 4.1 * u.
Proof.
  assert (H1 : (1 + u) ^ 1 <= 1 + 1 * u) by (simpl; lra).
  pose proof (pow_hi_step 1 _ H1) as H2; specialize (H2 ltac:(lra)).
  pose proof (pow_hi_step 2 _ H2) as H3; specialize (H3 ltac:(lra)).
  pose proof (pow_hi_step 3 _ H3) as H4; specialize (H4 ltac:(lra)).
  eapply Rle_trans; [exact H4 |]. lra.
Qed.

(** ** The bistatic distance *)

Lemma Rb_rounded_error_aux (i r t : ndarray) :
  Rabs (Fl.Rb rnd i r t - Rb i r t) <= 11 * u * (Rt t i + Rr t r).
Proof.
  unfold Fl.Rb, Fl.Rt, Fl.Rr, Fl.L, Rb, Rt, Rr, L.
  pose proof (dist_approx u rnd Hu Hr t i) as Hti.
  pose proof (dist_approx u rnd Hu Hr t r) as Htr.
  pose proof (dist_approx u rnd Hu Hr r i) as [L1 L2].
  pose proof (dist_nonneg t i) as Pti. pose proof (dist_nonneg t r) as Ptr.
  pose proof (dist_nonneg r i) as Pri.
  pose proof (dist_triangle r t i) as Tri. rewrite (dist_sym r t) in Tri.
  assert (HA : approx u 5 (dist t i + dist t r)
                 (rnd (Fl.dist rnd t i + Fl.dist rnd t r))).
  { apply (approx_rnd u rnd Hu Hr); [lra | apply approx_add; assumption]. }
  destruct HA as [A1 A2].
  set (A := rnd (Fl.dist rnd t i + Fl.dist rnd t r)) in *.
  set (L' := Fl.dist rnd r i) in *.
  set (S := dist t i + dist t r) in *.
  pose proof (pow_lo_bernoulli 5) as B5. pose proof (pow_lo_bernoulli 4) as B4.
  pose proof pow_hi_5 as H5. pose proof pow_hi_4 as H4.
  replace (INR 5) with 5 in B5 by (simpl; lra).
  replace (INR 4) with 4 in B4 by (simpl; lra).
  assert (PS : 0 <= S) by (unfold S; lra).
  assert (LS : dist r i <= S) by (unfold S; lra).
  pose proof (Rmult_le_compat_r S _ _ PS B5) as B5S.
  pose proof (Rmult_le_compat_r S _ _ PS H5) as H5S.
  pose proof (Rmult_le_compat_r (dist r i) _ _ Pri B4) as B4L.
  pose proof (Rmult_le_compat_r (dist r i) _ _ Pri H4) as H4L.
  assert (PuL : u * dist r i <= u * S) by (apply Rmult_le_compat_l; lra).
  assert (EA : - (5.1 * u * S) <= A - S <= 5.1 * u * S) by (split; lra).
  assert (EL : - (4.1 * u * S) <= L' - dist r i <= 4.1 * u * S) by (split; lra).
  pose proof (Hr (A - L')) as HR. apply Rabs_le_inv in HR.
  assert (PuS : 0 <= u * S) by (apply Rmult_le_pos; lra).
  assert (Habs : Rabs (A - L') <= (1 + 9.2 * u) * S).
  { apply Rabs_le. split; lra. }
  assert (HuS : u * Rabs (A - L') <= 1.01 * (u * S)).
  { apply Rle_trans with (u * ((1 + 9.2 * u) * S)).
    - apply Rmult_le_compat_l; lra.
    - assert (u * (u * S) <= / 1000 * (u * S))
        by (apply Rmult_le_compat_r; lra).
      lra. }
  apply Rabs_le. split; lra.
Qed.


(** ** The speed vector *)

Lemma pow_hi_3 : (1 + u) ^ 3 <= 1 + 3.1 * u.
Proof.
  assert (H1 : (1 + u) ^ 1 <= 1 + 1 * u) by (simpl; lra).
  pose proof (pow_hi_step 1 _ H1) as H2; specialize (H2 ltac:(lra)).
  pose proof (pow_hi_step 2 _ H2) as H3; specialize (H3 ltac:(lra)).
  eapply Rle_trans; [exact H3 |]. lra.
Qed.

Lemma nd_sub_rounded_nonzero (q p : ndarray) : q <> p -> Fl.nd_sub rnd q p <> zeros.
Proof.
  intros Hne E. apply Hne. apply (proj1 (nd_sub_zero_iff q p)).
  unfold Fl.nd_sub, zeros in E. injection E as Ex Ey Ez.
  apply (proj1 (rnd_zero_iff u rnd Hu Hr _)) in Ex, Ey, Ez.
  unfold nd_sub, zeros. f_equal; assumption.
Qed.

Lemma scaled_twice (x n s : R) :
  n <> 0 ->
  exists f, (1 - u) ^ 2 <= f <= (1 + u) ^ 2 /\
            rnd (rnd (x / n) * s) = x * (s / n) * f.
Proof.
  intros Hn.
  destruct (rnd_factor u rnd Hu Hr (x / n)) as (a & Ha & ->).
  destruct (rnd_factor u rnd Hu Hr (x / n * a * s)) as (b & Hb & ->).
  exists (a * b). split.
  - apply (factor_mul u Hu 1 1); apply factor_1; assumption.
  - field. exact Hn.
Qed.

Lemma speed_vector_rounded_norm (q p : ndarray) (s : R) :
  q <> p -> 0 <= s ->
  exists v,
    Fl.speed_vector rnd q p s = Some v /\
    Rabs (l2norm v - s) <= 6 * u * s /\
    Rabs (Fl.norm rnd v - s) <= 10 * u * s.
Proof.
  intros Hne Hs.
  pose proof (nd_sub_rounded_nonzero q p Hne) as Hd.
  set (d := Fl.nd_sub rnd q p) in *.
  assert (HD : 0 < l2norm d).
  { destruct (l2norm_nonneg d) as [H | H]; [exact H |].
    symmetry in H. apply l2norm_zero_iff in H. contradiction. }
  pose proof (norm_approx u rnd Hu Hr d) as [N1 N2].
  set (n := Fl.norm rnd d) in *.
  pose proof (pow_lo_pos u Hu 3) as L3.
  assert (Hn : 0 < n) by nra.
  unfold Fl.speed_vector. fold d. cbv zeta. fold n. unfold Fl.nd_div.
  destruct (Req_dec_T n 0) as [E | _]; [lra |]. cbn [bind].
  eexists. split; [reflexivity |].
  set (v := Fl.nd_scale rnd _ s).
  pose proof (norm_approx u rnd Hu Hr v) as HN.
  set (N' := Fl.norm rnd v) in *.
  destruct (scaled_twice (x_ d) n s ltac:(lra)) as (f1 & F1 & E1).
  destruct (scaled_twice (y_ d) n s ltac:(lra)) as (f2 & F2 & E2).
  destruct (scaled_twice (z_ d) n s ltac:(lra)) as (f3 & F3 & E3).
  assert (EX : l2norm v
               = l2norm
                   (array (x_ d * (s / n) * f1) (y_ d * (s / n) * f2)
                      (z_ d * (s / n) * f3))).
  { unfold v, Fl.nd_scale; cbn [x_ y_ z_]. rewrite E1, E2, E3. reflexivity. }
  rewrite EX in HN |- *. clear E1 E2 E3 EX.
  set (X := l2norm
              (array (x_ d * (s / n) * f1) (y_ d * (s / n) * f2)
                 (z_ d * (s / n) * f3))) in *.
  assert (HX : approx u 2 (l2norm (nd_scale d (s / n))) X).
  { unfold X, l2norm, nd_scale; cbn [x_ y_ z_].
    apply (approx_sqrt u Hu);
      [apply (sumsq_nonneg (array (x_ d * (s / n)) (y_ d * (s / n)) (z_ d * (s / n)))) |].
    apply approx_add; [apply approx_add |]; apply (approx_sq u Hu 2); assumption. }
  rewrite l2norm_scale in HX.
  assert (Hsn : 0 <= s / n) by (apply Rmult_le_pos; [lra | left; apply Rinv_0_lt_compat, Hn]).
  rewrite Rabs_right in HX by lra.
  destruct HX as [X1 X2].
  set (rho := l2norm d / n).
  assert (Erho : s / n * l2norm d = s * rho) by (unfold rho; field; lra).
  rewrite Erho in X1, X2.
  assert (Hrho : 0 < rho) by (apply Rmult_lt_0_compat; [lra | apply Rinv_0_lt_compat, Hn]).
  assert (R1 : (1 - u) ^ 3 * rho <= 1).
  { unfold rho. apply (Rmult_le_reg_r n); [exact Hn |].
    replace ((1 - u) ^ 3 * (l2norm d / n) * n) with ((1 - u) ^ 3 * l2norm d) by (field; lra).
    lra. }
  assert (R2 : 1 <= (1 + u) ^ 3 * rho).
  { unfold rho. apply (Rmult_le_reg_r n); [exact Hn |].
    replace ((1 + u) ^ 3 * (l2norm d / n) * n) with ((1 + u) ^ 3 * l2norm d) by (field; lra).
    lra. }
  pose proof (pow_lo_bernoulli 3) as B3. replace (INR 3) with 3 in B3 by (simpl; lra).
  pose proof pow_hi_3 as H3.
  assert (E2l : (1 - u) ^ 2 = 1 - 2 * u + u * u) by ring.
  assert (E2h : (1 + u) ^ 2 = 1 + 2 * u + u * u) by ring.
  rewrite E2l in X1. rewrite E2h in X2.
  assert (Huu : 0 <= u * u <= / 1000 * u) by (split; nra).
  (* rho lies in [1 - 3.1 u, 1 + 3.1 u] *)
  assert (Rlo : 1 - 3.1 * u <= rho).
  { assert ((1 - 3.1 * u) * (1 + 3.1 * u) <= 1) by nra.
    assert ((1 + 3.1 * u) * rho >= 1) by nra.
    apply (Rmult_le_reg_l (1 + 3.1 * u)); [lra |]. lra. }
  assert (Rhi : rho <= 1 + 3.1 * u).
  { assert (1 <= (1 - 3 * u) * (1 + 3.1 * u)) by nra.
    assert ((1 - 3 * u) * rho <= 1) by nra.
    apply (Rmult_le_reg_l (1 - 3 * u)); [lra |]. lra. }
  assert (Psr : 0 <= s * rho) by (apply Rmult_le_pos; lra).
  assert (Hup : X <= (1 + 6 * u) * s).
  { apply Rle_trans with ((1 + 2 * u + u * u) * (s * rho)); [exact X2 |].
    apply Rle_trans with ((1 + 2.001 * u) * (s * (1 + 3.1 * u))).
    - apply Rmult_le_compat; try lra. apply Rmult_le_compat_l; lra.
    - nra. }
  assert (Hdn : (1 - 6 * u) * s <= X).
  { apply Rle_trans with ((1 - 2 * u + u * u) * (s * rho)); [| exact X1].
    apply Rle_trans with ((1 - 2 * u) * (s * (1 - 3.1 * u))).
    - nra.
    - apply Rmult_le_compat; try lra.
      + apply Rmult_le_pos; lra.
      + apply Rmult_le_compat_l; lra. }
  split; [apply Rabs_le; lra |].
  destruct HN as [N1' N2'].
  assert (PX : 0 <= X) by (unfold X; apply l2norm_nonneg).
  assert (Pus : 0 <= u * s) by (apply Rmult_le_pos; lra).
  assert (Puus : u * (u * s) <= / 1000 * (u * s))
    by (apply Rmult_le_compat_r; lra).
  assert (Puus0 : 0 <= u * (u * s)) by (apply Rmult_le_pos; lra).
  assert (Nlo : (1 - 10 * u) * s <= N').
  { apply Rle_trans with ((1 - u) ^ 3 * X); [| exact N1'].
    apply Rle_trans with ((1 - 3 * u) * ((1 - 6 * u) * s)); [lra |].
    apply Rmult_le_compat; try lra.
    apply Rmult_le_pos; lra. }
  assert (Nhi : N' <= (1 + 10 * u) * s).
  { apply Rle_trans with ((1 + u) ^ 3 * X); [exact N2' |].
    apply Rle_trans with ((1 + 3.1 * u) * ((1 + 6 * u) * s)); [| lra].
    apply Rmult_le_compat; try lra.
    pose proof (pow_lo_pos u Hu 3). pose proof (pow_hi_ge_1 u Hu 3). lra. }
  apply Rabs_le. lra.
Qed.

(** ** The Doppler frequency and the wavelength *)

Lemma four_factors (a b c d : R) :
  1 - u <= a <= 1 + u -> 1 - u <= b <= 1 + u ->
  1 - u <= c <= 1 + u -> 1 - u <= d <= 1 + u ->
  Rabs (d / c - a * b) <= 5 * u * (a * b).
Proof.
  intros Ha Hb Hc Hd.
  assert (Hab : 0 < a * b) by nra.
  assert (Habc : (1 - u) ^ 3 <= a * b * c <= (1 + u) ^ 3).
  { replace (a * b * c) with (a * (b * c)) by ring.
    apply (factor_mul u Hu 1 2); [apply factor_1, Ha |].
    apply (factor_mul u Hu 1 1); apply factor_1; assumption. }
  pose proof (pow_lo_bernoulli 3) as B3. replace (INR 3) with 3 in B3 by (simpl; lra).
  pose proof pow_hi_3 as H3.
  assert (Hc0 : 0 < c) by lra.
  assert (Huu : 0 <= u * u <= / 1000 * u) by (split; nra).
  assert (K : - (5 * u * (a * b * c)) <= d - a * b * c <= 5 * u * (a * b * c)).
  { assert (5 * u * (1 - 3 * u) <= 5 * u * (a * b * c))
      by (apply Rmult_le_compat_l; lra).
    split; lra. }
  apply Rabs_le. split.
  - apply (Rmult_le_reg_r c); [exact Hc0 |].
    replace ((d / c - a * b) * c) with (d - a * b * c) by (field; lra). lra.
  - apply (Rmult_le_reg_r c); [exact Hc0 |].
    replace ((d / c - a * b) * c) with (d - a * b * c) by (field; lra). lra.
Qed.

Lemma fD_rounded_wavelength (v t i r : ndarray) (rt rr lambda k : R) :
  0 < k ->
  match Fl.fD rnd v t i r rt rr (rnd (k * lambda)),
        (f <- Fl.fD rnd v t i r rt rr lambda ;; Fl.np_div rnd f k) with
  | Some f', Some g => Rabs (f' - g) <= 5 * u * Rabs g
  | None, None => True
  | _, _ => False
  end.
Proof.
  intros Hk. unfold Fl.fD.
  destruct (Fl.nd_div rnd (Fl.nd_sub rnd t i) rt) as [ui |]; [| exact I].
  destruct (Fl.nd_div rnd (Fl.nd_sub rnd t r) rr) as [ur |]; [| exact I].
  cbn [bind].
  set (N := rnd (-1 * rnd (Fl.np_sum rnd (Fl.nd_mul rnd v ui)
                           + Fl.np_sum rnd (Fl.nd_mul rnd v ur)))).
  unfold Fl.np_div.
  destruct (Req_dec_T lambda 0) as [-> | Hl].
  - rewrite Rmult_0_r, (proj2 (rnd_zero_iff u rnd Hu Hr 0) eq_refl).
    destruct (Req_dec_T 0 0) as [_ | H]; [exact I | now elim H].
  - destruct (Req_dec_T (rnd (k * lambda)) 0) as [E | _].
    + apply (proj1 (rnd_zero_iff u rnd Hu Hr _)) in E. apply Rmult_integral in E.
      destruct E; [lra | contradiction].
    + cbn [bind].
      destruct (Req_dec_T k 0) as [E | _]; [lra |].
      destruct (rnd_factor u rnd Hu Hr (k * lambda)) as (c & Hc & ->).
      destruct (rnd_factor u rnd Hu Hr (N / (k * lambda * c))) as (d & Hd & ->).
      destruct (rnd_factor u rnd Hu Hr (N / lambda)) as (a & Ha & ->).
      destruct (rnd_factor u rnd Hu Hr (N / lambda * a / k)) as (b & Hb & ->).
      assert (Hc0 : c <> 0) by lra.
      replace (N / (k * lambda * c) * d - N / lambda * a / k * b)
        with (N / (k * lambda) * (d / c - a * b)) by (field; repeat split; lra).
      replace (N / lambda * a / k * b) with (N / (k * lambda) * (a * b))
        by (field; split; lra).
      rewrite (Rabs_mult (N / (k * lambda)) (d / c - a * b)),
        (Rabs_mult (N / (k * lambda)) (a * b)).
      assert (Hab : 0 < a * b) by nra.
      rewrite (Rabs_right (a * b)) by lra.
      replace (5 * u * (Rabs (N / (k * lambda)) * (a * b)))
        with (Rabs (N / (k * lambda)) * (5 * u * (a * b))) by ring.
      apply Rmult_le_compat_l; [apply Rabs_pos |].
      apply four_factors; assumption.
Qed.

End RoundedCells.

(** ** Exact arithmetic is rounding with the identity *)

Lemma exact_norm (v : ndarray) : Fl.norm (fun x => x) v = l2norm v.
Proof.
  unfold Fl.norm, Fl.np_sqrt, Fl.np_sum, Fl.nd_sq, np_abs, l2norm; cbn [x_ y_ z_].
  f_equal. rewrite <- !Rabs_mult, !Rabs_right; [reflexivity | | |];
    match goal with |- ?a * ?a >= 0 => pose proof (Rle_0_sqr a) as H; unfold Rsqr in H; lra end.
Qed.

Lemma exact_dist (a b : ndarray) : Fl.dist (fun x => x) a b = dist a b.
Proof. unfold Fl.dist. rewrite exact_norm, dist_l2norm. reflexivity. Qed.

Lemma exact_Rb (i r t : ndarray) : Fl.Rb (fun x => x) i r t = Rb i r t.
Proof. unfold Fl.Rb, Fl.Rt, Fl.Rr, Fl.L, Rb, Rt, Rr, L. rewrite !exact_dist. reflexivity. Qed.

Lemma exact_tau (Rb : R) : Fl.tau (fun x => x) Rb = tau Rb.
Proof. reflexivity. Qed.

Lemma exact_speed_vector (q p : ndarray) (s : R) :
  Fl.speed_vector (fun x => x) q p s = speed_vector q p s.
Proof.
  unfold Fl.speed_vector, speed_vector. cbv zeta.
  change (Fl.nd_sub (fun x => x) q p) with (q - p)%nd.
  rewrite exact_norm.
  pose proof (dist_l2norm q p) as H. unfold dist in H. rewrite H.
  reflexivity.
Qed.

Lemma exact_fD (v t i r : ndarray) (rt rr lambda : R) :
  Fl.fD (fun x => x) v t i r rt rr lambda = fD v t i r rt rr lambda.
Proof. reflexivity. Qed.

(** ** A rounding that meets the hypothesis *)

Lemma unit_roundoff_small : 0 <= unit_roundoff <= / 1000.
Proof. unfold unit_roundoff. split; [left; apply Rinv_0_lt_compat; lra |].
  apply Rinv_le_contravar; lra. Qed.

Lemma round_off_rounds : rounds_within unit_roundoff round_off.
Proof.
  intros x. unfold round_off.
  replace (x * (1 + unit_roundoff) - x) with (unit_roundoff * x) by ring.
  rewrite Rabs_mult, (Rabs_right unit_roundoff); [lra |].
  pose proof unit_roundoff_small. lra.
Qed.

(** ** C5 *)

(** C5, as worded, fails in binary64.  For the probe point (1, 1, 1), the
    target (0, 0, 0) and speed 10 the two points differ and the speed is
    positive, yet the norm of the returned vector, computed with the
    notebook's own expression, is above 10 (it is 10.000000000000002), and
    the exact sum of the squares of its three entries is not 100. *)
Lemma C5_counterexample :
  PrimFloat.ltb 10
    (B64.norm (B64.speed_vector (B64.array 1 1 1) (B64.array 0 0 0) 10))%float
  = true /\
  ~ (B64.sumsq (B64.speed_vector (B64.array 1 1 1) (B64.array 0 0 0) 10%float)
     == 10 * 10)%Q.
Proof.
  split.
  - vm_compute. reflexivity.
  - vm_compute. discriminate.
Qed.

(** On that input the exact norm is within 6 units of roundoff of the speed:
    its square lies between [(10 * (1 - 6 * 2^-53))^2] and
    [(10 * (1 + 6 * 2^-53))^2]. *)
Lemma binary64_speed_vector_norm_close :
  Qle_bool ((10 * (1 - 6 * (1 # 2 ^ 53))) * (10 * (1 - 6 * (1 # 2 ^ 53))))
    (B64.sumsq (B64.speed_vector (B64.array 1 1 1) (B64.array 0 0 0) 10%float))
  = true /\
  Qle_bool
    (B64.sumsq (B64.speed_vector (B64.array 1 1 1) (B64.array 0 0 0) 10%float))
    ((10 * (1 + 6 * (1 # 2 ^ 53))) * (10 * (1 + 6 * (1 # 2 ^ 53))))
  = true.
Proof. split; vm_compute; reflexivity. Qed.

(** C5. For every target kinematics with speed > 0 and every heading, the
    velocity estimator takes the probe point 1 m along the heading from
    [destination], converts the target position and the probe point to
    Cartesian with the same converter, forms the difference, normalises it to
    unit length and scales it by the speed.  Whenever the two Cartesian
    points differ, the Euclidean norm of the returned vector is the speed up
    to rounding: it is the speed in exact arithmetic, and when every
    operation rounds with relative error at most [u] it is within [6 * u]
    of the speed, relative to the speed; the norm computed with the
    notebook's own expression is within [10 * u]. *)
Theorem C5_speed_vector_norm_rounded
    (u : R) (rnd : R -> R)
    (forward : EcefYou -> R -> R -> R -> ndarray)
    (destination : LatLonT -> R -> R -> LatLonT)
    (target_lat target_lon target_ele target_dir target_speed : R) :
  let probe := destination (LatLon target_lat target_lon) 1 target_dir in
  let p := forward ecef_converter target_lat target_lon target_ele in
  let q := forward ecef_converter (lat probe) (lon probe) target_ele in
  0 <= u <= / 1000 ->
  rounds_within u rnd ->
  0 < target_speed ->
  q <> p ->
  (exists v,
     speed_vector_cell forward destination
       target_lat target_lon target_ele target_dir target_speed = Some v /\
     v = nd_scale (nd_scale (q - p)%nd (/ l2norm (q - p)%nd)) target_speed /\
     l2norm v = target_speed) /\
  (exists v,
     Fl.speed_vector_cell rnd forward destination
       target_lat target_lon target_ele target_dir target_speed = Some v /\
     Rabs (l2norm v - target_speed) <= 6 * u * target_speed /\
     Rabs (Fl.norm rnd v - target_speed) <= 10 * u * target_speed).
Proof.
  intros probe p q Hu Hr Hs Hne. split.
  - destruct (speed_vector_cell_norm forward destination
                target_lat target_lon target_ele target_dir target_speed Hs Hne)
      as (v & Hv & Ev & _ & Hn).
    exists v. repeat split; assumption.
  - unfold Fl.speed_vector_cell, speed_vector_ecef, speed_vector_latlon, target_ecef.
    fold probe. apply (speed_vector_rounded_norm u rnd Hu Hr); [exact Hne | lra].
Qed.

Lemma C5_speed_vector_norm_rounded_witness :
  exists v,
    Fl.speed_vector_cell round_off EcefYou_forward destination_north 0 0 0 0 10
    = Some v /\
    Rabs (l2norm v - 10) <= 6 * unit_roundoff * 10.
Proof.
  destruct (C5_speed_vector_norm_rounded unit_roundoff round_off
              EcefYou_forward destination_north 0 0 0 0 10)
    as [_ (v & Hv & Hn & _)].
  - exact unit_roundoff_small.
  - exact round_off_rounds.
  - lra.
  - exact forward_probe_differs.
  - exists v. split; assumption.
Defined.

(** ** C10 *)

(** C10, as worded, fails in binary64.  With the velocity (3, 0, 4), the
    target (5, 0, 0), the illuminator (0, 0, 0), the receiver (5, 0, 2),
    wavelength 1.25 and [k = 7], the Doppler frequency for the wavelength
    [7 * 1.25] is 0.11428571428571428, and the Doppler frequency for the
    wavelength 1.25, divided by 7, is 0.1142857142857143. *)
Lemma C10_counterexample :
  PrimFloat.eqb
    (B64.fD (B64.array 3 0 4) (B64.array 5 0 0) (B64.array 0 0 0) (B64.array 5 0 2)
       5 2 (7 * 1.25))%float
    (B64.fD (B64.array 3 0 4) (B64.array 5 0 0) (B64.array 0 0 0) (B64.array 5 0 2)
       5 2 1.25 / 7)%float
  = false.
Proof. vm_compute. reflexivity. Qed.

(** On that input the two values differ by less than 5 units of roundoff,
    relative to the second. *)
Lemma binary64_fD_wavelength_close :
  Qle_bool
    (Qabs
       (B64.toQ
          (B64.fD (B64.array 3 0 4) (B64.array 5 0 0) (B64.array 0 0 0)
             (B64.array 5 0 2) 5 2 (7 * 1.25))%float
        - B64.toQ
            (B64.fD (B64.array 3 0 4) (B64.array 5 0 0) (B64.array 0 0 0)
               (B64.array 5 0 2) 5 2 1.25 / 7)%float))
    (5 * (1 # 2 ^ 53)
     * Qabs
         (B64.toQ
            (B64.fD (B64.array 3 0 4) (B64.array 5 0 0) (B64.array 0 0 0)
               (B64.array 5 0 2) 5 2 1.25 / 7)%float))
  = true.
Proof. vm_compute. reflexivity. Qed.

(** C10. For every fixed geometry, velocity vector and scale factor [k > 0],
    the Doppler frequency is inversely proportional to the wavelength up to
    rounding.  In exact arithmetic the computation with wavelength
    [k * lambda] yields the value obtained with wavelength [lambda], divided
    by [k].  When every operation rounds with relative error at most [u],
    the product [k * lambda] and the division by [k] included, the two
    values are both finite or both not, and they differ by at most [5 * u]
    relative to the second. *)
Theorem C10_doppler_inverse_wavelength_rounded
    (u : R) (rnd : R -> R) (v t i r : ndarray) (rt rr lambda k : R) :
  0 <= u <= / 1000 ->
  rounds_within u rnd ->
  0 < k ->
  fD v t i r rt rr (k * lambda)
  = (f <- fD v t i r rt rr lambda ;; np_div f k) /\
  match Fl.fD rnd v t i r rt rr (rnd (k * lambda)),
        (f <- Fl.fD rnd v t i r rt rr lambda ;; Fl.np_div rnd f k) with
  | Some f', Some g => Rabs (f' - g) <= 5 * u * Rabs g
  | None, None => True
  | _, _ => False
  end.
Proof.
  intros Hu Hr Hk. split.
  - apply fD_inverse_wavelength, Hk.
  - apply (fD_rounded_wavelength u rnd Hu Hr), Hk.
Qed.

Lemma C10_doppler_inverse_wavelength_rounded_witness :
  fD (array 3 0 4) (array 5 0 0) (array 0 0 0) (array 5 0 2) 5 2 (7 * (5 / 4))
  = (f <- fD (array 3 0 4) (array 5 0 0) (array 0 0 0) (array 5 0 2) 5 2 (5 / 4) ;;
     np_div f 7) /\
  match Fl.fD round_off (array 3 0 4) (array 5 0 0) (array 0 0 0) (array 5 0 2)
          5 2 (round_off (7 * (5 / 4))),
        (f <- Fl.fD round_off (array 3 0 4) (array 5 0 0) (array 0 0 0) (array 5 0 2)
                5 2 (5 / 4) ;;
         Fl.np_div round_off f 7) with
  | Some f', Some g => Rabs (f' - g) <= 5 * unit_roundoff * Rabs g
  | None, None => True
  | _, _ => False
  end.
Proof.
  apply (C10_doppler_inverse_wavelength_rounded unit_roundoff round_off
           (array 3 0 4) (array 5 0 0) (array 0 0 0) (array 5 0 2) 5 2 (5 / 4) 7).
  - exact unit_roundoff_small.
  - exact round_off_rounds.
  - lra.
Defined.

(** ** Bistatic distance and delay under rounding *)

(** In binary64 the bistatic distance of a target on the baseline can come
    out negative: for the illuminator (0, 0, 0), the receiver (4, 4, 0) and
    the target (1, 1, 0) cell 2 yields [Rb = -8.9e-16], and a negative
    delay.  The magnitude of this [Rb] is below [11 * 2^-53 * 5.65], and
    5.65 is below the baseline [sqrt 32]. *)
Lemma binary64_Rb_on_baseline :
  PrimFloat.ltb (B64.Rb (B64.array 0 0 0) (B64.array 4 4 0) (B64.array 1 1 0)) 0
  = true /\
  PrimFloat.ltb
    (B64.tau (B64.Rb (B64.array 0 0 0) (B64.array 4 4 0) (B64.array 1 1 0))) 0
  = true /\
  Qle_bool
    (Qabs (B64.toQ (B64.Rb (B64.array 0 0 0) (B64.array 4 4 0) (B64.array 1 1 0))))
    (11 * (1 # 2 ^ 53) * (565 # 100))
  = true.
Proof. repeat split; vm_compute; reflexivity. Qed.

(** X4. When every operation rounds with relative error at most [u], the
    bistatic distance of cell 2 differs from the exact [Rt + Rr - L] by at
    most [11 * u * (Rt + Rr)].  The exact value is not negative, so the
    computed one is never below [- 11 * u * (Rt + Rr)]. *)
Theorem Rb_rounded_error (u : R) (rnd : R -> R) (i r t : ndarray) :
  0 <= u <= / 1000 ->
  rounds_within u rnd ->
  Rabs (Fl.Rb rnd i r t - Rb i r t) <= 11 * u * (Rt t i + Rr t r) /\
  - (11 * u * (Rt t i + Rr t r)) <= Fl.Rb rnd i r t.
Proof.
  intros Hu Hr.
  pose proof (Rb_rounded_error_aux u rnd Hu Hr i r t) as H.
  split; [exact H |].
  apply Rabs_le_inv in H. pose proof (Rb_nonneg i r t). lra.
Qed.

Lemma Rb_rounded_error_witness :
  Rabs (Fl.Rb round_off (array 0 0 0) (array 4 4 0) (array 1 1 0)
        - Rb (array 0 0 0) (array 4 4 0) (array 1 1 0))
  <= 11 * unit_roundoff
     * (Rt (array 1 1 0) (array 0 0 0) + Rr (array 1 1 0) (array 4 4 0)) /\
  - (11 * unit_roundoff
     * (Rt (array 1 1 0) (array 0 0 0) + Rr (array 1 1 0) (array 4 4 0)))
  <= Fl.Rb round_off (array 0 0 0) (array 4 4 0) (array 1 1 0).
Proof.
  apply (Rb_rounded_error unit_roundoff round_off
           (array 0 0 0) (array 4 4 0) (array 1 1 0)).
  - exact unit_roundoff_small.
  - exact round_off_rounds.
Defined.

(** X16. For a target on the segment from the illuminator to the receiver
    the computed bistatic distance is zero up to rounding: when every
    operation rounds with relative error at most [u], its magnitude is at
    most [11 * u * L]. *)
Theorem Rb_rounded_on_segment (u : R) (rnd : R -> R) (i r t : ndarray) (s : R) :
  0 <= u <= / 1000 ->
  rounds_within u rnd ->
  0 <= s <= 1 ->
  t = (i + nd_scale (r - i) s)%nd ->
  Rabs (Fl.Rb rnd i r t) <= 11 * u * L r i.
Proof.
  intros Hu Hr Hs Et.
  assert (E0 : Rb i r t = 0) by (apply Rb_zero_iff; exists s; split; assumption).
  pose proof (Rb_rounded_error_aux u rnd Hu Hr i r t) as H.
  rewrite E0, Rminus_0_r in H.
  replace (L r i) with (Rt t i + Rr t r) by (unfold Rb in E0; lra).
  exact H.
Qed.

Lemma Rb_rounded_on_segment_witness :
  Rabs (Fl.Rb round_off (array 0 0 0) (array 4 4 0) (array 1 1 0))
  <= 11 * unit_roundoff * L (array 4 4 0) (array 0 0 0).
Proof.
  apply (Rb_rounded_on_segment unit_roundoff round_off
           (array 0 0 0) (array 4 4 0) (array 1 1 0) (1 / 4)).
  - exact unit_roundoff_small.
  - exact round_off_rounds.
  - lra.
  - unfold nd_add, nd_sub, nd_scale; cbn [x_ y_ z_]. f_equal; lra.
Defined.

(** X13. The delay of cell 2 is finite for every bistatic distance, the
    divisor being a constant.  When every operation rounds with relative
    error at most [u], thirty times the delay differs from the bistatic
    distance by at most [3 * u] relative to it (one sample per 30 m), and
    the delay has the sign of the bistatic distance. *)
Theorem tau_rounded (u : R) (rnd : R -> R) (Rb : R) :
  0 <= u <= / 1000 ->
  rounds_within u rnd ->
  exists d,
    Fl.tau rnd Rb = Some d /\
    Rabs (d * 30 - Rb) <= 3 * u * Rabs Rb /\
    (0 <= Rb -> 0 <= d) /\ (Rb <= 0 -> d <= 0).
Proof.
  intros Hu Hr.
  unfold Fl.tau, Fl.np_div, c, fs.
  destruct (Req_dec_T (3 * 10 ^ 8) 0) as [E | _]; [exfalso; lra |].
  eexists. split; [reflexivity |].
  destruct (rnd_factor u rnd Hu Hr (Rb * (10 * 10 ^ 6))) as (a & Ha & ->).
  destruct (rnd_factor u rnd Hu Hr (Rb * (10 * 10 ^ 6) * a / (3 * 10 ^ 8)))
    as (b & Hb & ->).
  replace (Rb * (10 * 10 ^ 6) * a / (3 * 10 ^ 8) * b) with (Rb * (a * b) / 30)
    by (field; lra).
  assert (Hab : - (3 * u) <= a * b - 1 <= 3 * u) by (split; nra).
  assert (Hpos : 0 < a * b) by nra.
  split; [| split].
  - replace (Rb * (a * b) / 30 * 30 - Rb) with (Rb * (a * b - 1)) by field.
    rewrite Rabs_mult, (Rmult_comm (3 * u)).
    apply Rmult_le_compat_l; [apply Rabs_pos | apply Rabs_le; lra].
  - intros H. assert (0 <= Rb * (a * b)) by (apply Rmult_le_pos; lra). lra.
  - intros H. assert (0 <= (- Rb) * (a * b)) by (apply Rmult_le_pos; lra). lra.
Qed.

Lemma tau_rounded_witness :
  exists d,
    Fl.tau round_off 7236 = Some d /\
    Rabs (d * 30 - 7236) <= 3 * unit_roundoff * Rabs 7236 /\
    (0 <= 7236 -> 0 <= d) /\ (7236 <= 0 -> d <= 0).
Proof.
  apply (tau_rounded unit_roundoff round_off 7236).
  - exact unit_roundoff_small.
  - exact round_off_rounds.
Defined.
